(** * The roles router of the a2 access-control service

    A shallow embedding of the Express router that administers roles,
    resources and permissions (the file with [router.post('/')],
    [router.delete('/:roleName')], [updateAppRoutes], ...), and the
    properties of its request handlers.

    The router talks to three collaborators that are not part of it:
    - [req.app.acl], the access-control store: an interface here
      ([AclBackend]), with a reference store that follows the written
      contract of the store ([RefStore]);
    - [req.app.db.model('application')], the application route registry:
      an interface ([Registry]);
    - [async.auto], the task driver: [async_auto] below.

    Handlers are written in a small state monad over a [World]: the store,
    the registry, the part of the JavaScript heap that outlives a request
    ([Object.prototype] and what the router may leave on it) and the trace
    of everything the handler did (backend calls, registry calls, and the
    responses [next(err)], [res.json(v)], [res.send(v)]). *)

From stdpp Require Import gmap strings list fin_maps.
From Stdlib Require Import ZArith Ascii.

Set Warnings "-clear-no-such-hyp".

Open Scope string_scope.
Open Scope list_scope.

(** ** Data *)

(** A JavaScript [Error] as the router builds and forwards it:
    [new Error(message)] with an optional [status]. *)
Record Err := mkErr { err_message : string; err_status : option nat }.

(** The object [whatResources] yields, by its own properties: resource
    name to permission array. It is a plain object, so reading a name that
    is not among them goes on to [Object.prototype]: see [member]. *)
Abbreviation ResMap := (gmap string (list string)).

(** What a handler reads from an object, puts in a response, or hands to a
    callback: [undefined], an array of strings, the whole object of
    [whatResources], a function that is a member of [Object.prototype]
    (named by the property under which every object inherits it), or
    [Object.prototype] itself. *)
Inductive Value :=
| VUndefined
| VArray (l : list string)
| VObject (m : ResMap)
| VFunction (name : string)
| VPrototype.

(** Truthiness: of these values only [undefined] is falsy (an empty array
    is truthy). *)
Definition truthyValue (v : Value) : bool :=
  match v with
  | VUndefined => false
  | _ => true
  end.

(** An argument that the store accepts as one string or as an array; the
    router can also pass on a value that is neither ([Other]). *)
Inductive StrOrArr :=
| Str (s : string)
| Arr (l : list string)
| Other (v : Value).

(** The strings that such an argument names. *)
Definition makeArray (x : StrOrArr) : list string :=
  match x with
  | Str s => [s]
  | Arr l => l
  | Other _ => []
  end.

(** One entry of [req.body.allows]. *)
Record Allow := mkAllow {
  a_resources : list string;
  a_permissions : list string
}.

(** [req.body]; a field that is absent is [None]. *)
Record Body := mkBody {
  b_roles : option string;
  b_allows : option (list Allow);
  b_resources : option (list string);
  b_permissions : option (list string)
}.

(** [req.params]: [roleName], the wildcard [req.params[0]] and
    [permissionName]. *)
Record Params := mkParams {
  p_roleName : option string;
  p_0 : option string;
  p_permissionName : option string
}.

Record Req := mkReq { params : Params; body : Body }.

(** [x || ''] on a route parameter. *)
Definition orEmpty (x : option string) : string :=
  match x with
  | Some (String c s) => String c s
  | _ => ""
  end.

(** JavaScript truthiness of an optional string: absent and [''] are falsy. *)
Definition truthyStr (x : option string) : bool :=
  match x with
  | Some (String _ _) => true
  | _ => false
  end.

(** Truthiness of an optional array or object: only absence is falsy. *)
Definition truthy {A : Type} (x : option A) : bool :=
  match x with
  | Some _ => true
  | None => false
  end.

(** An array field read on a path where validation has found it present. *)
Definition arr (x : option (list string)) : list string := default [] x.

(** [Array.prototype.indexOf]: position of the first occurrence, or -1. *)
Fixpoint indexOf (x : string) (l : list string) : Z :=
  match l with
  | [] => (-1)%Z
  | y :: l' =>
      if String.eqb y x then 0%Z
      else let i := indexOf x l' in
           if (i =? -1)%Z then (-1)%Z else (i + 1)%Z
  end.

(** ** [Object.prototype]

    The members that every plain object inherits. The functions are given
    with their [length]; [__proto__] is an accessor that yields
    [Object.prototype] itself. *)

Definition objectPrototype : list (string * nat) :=
  [ ("constructor", 1); ("__defineGetter__", 2); ("__defineSetter__", 2);
    ("hasOwnProperty", 1); ("__lookupGetter__", 1); ("__lookupSetter__", 1);
    ("isPrototypeOf", 1); ("propertyIsEnumerable", 1); ("toString", 0);
    ("valueOf", 0); ("toLocaleString", 0) ]%nat.

Fixpoint assoc {A} (k : string) (l : list (string * A)) : option A :=
  match l with
  | [] => None
  | (k', a) :: l' => if String.eqb k' k then Some a else assoc k l'
  end.

(** [f.length] of the member function named [name]. *)
Definition arityOf (name : string) : option nat := assoc name objectPrototype.

(** What of the heap outlives a request and is within the router's reach:
    the property [routes] of [Object.prototype], and the property [routes]
    of the functions that are members of [Object.prototype] (of [Object]
    under ["constructor"], and so on). Neither exists until
    [updateAppRoutes] creates it. *)
Record Heap := mkHeap {
  protoRoutes : option (list string);
  memberRoutes : gmap string (list string)
}.

(** The heap of a process in which [Object.prototype] is as the language
    defines it. *)
Definition untouched : Heap := mkHeap None ∅.

Definition withProto (routes : list string) (g : Heap) : Heap :=
  mkHeap (Some routes) (memberRoutes g).

Definition withMember (f : string) (routes : list string) (g : Heap) : Heap :=
  mkHeap (protoRoutes g) (<[f := routes]> (memberRoutes g)).

(** [({})[name]]: what a plain object with no own property [name] yields
    for it. *)
Definition inherited (g : Heap) (name : string) : Value :=
  if String.eqb name "__proto__" then VPrototype
  else match arityOf name with
       | Some _ => VFunction name
       | None =>
           if String.eqb name "routes" then
             match protoRoutes g with
             | Some routes => VArray routes
             | None => VUndefined
             end
           else VUndefined
       end.

(** The names under which a plain object inherits something when
    [Object.prototype] is untouched. *)
Definition inheritedNames : list string :=
  "__proto__" :: map fst objectPrototype.

(** [result[resource]] on the object of [whatResources]: the own property
    if there is one, else what the object inherits. *)
Definition member (g : Heap) (result : ResMap) (resource : string) : Value :=
  match result !! resource with
  | Some perms => VArray perms
  | None => inherited g resource
  end.

(** [v.length] where it is a number: of an array, and of a function. *)
Definition lengthOf (v : Value) : option nat :=
  match v with
  | VArray l => Some (length l)
  | VFunction name => arityOf name
  | _ => None
  end.

(** [v.length < n]; a comparison with [undefined] is false. *)
Definition shorterThan (n : nat) (v : Value) : bool :=
  match lengthOf v with
  | Some k => (k <? n)%nat
  | None => false
  end.

(** ** The collaborators *)

(** The calls the router makes on [req.app.acl], as they appear in the
    trace. *)
Inductive AclCall :=
| CListRoles
| CExistsRole (role : string)
| CWhatResources (role : string)
| CAllow (role : string) (res : StrOrArr) (perms : list string)
| CAllowEx (objs : list Body)
| CRemoveAllow (role : string) (res : string) (perms : StrOrArr)
| CRemoveRole (role : string)
| CRoleUsers (role : string).

(** The access-control store. Queries read the state; mutations return the
    error they pass to their callback, if any, and the next state. *)
Class AclBackend (St : Type) := {
  listRoles : St → Err + list string;
  existsRole : string → St → option Err;
  whatResources : string → St → Err + ResMap;
  allow : string → StrOrArr → list string → St → option Err * St;
  allowEx : list Body → St → option Err * St;
  removeAllow : string → string → StrOrArr → St → option Err * St;
  removeRole : string → St → option Err * St
}.

(** What [ApplicationModel.findOne({prefix: p}, 'routes', cb)] hands to
    its callback: an error, no document, or a document and its [routes]
    field (which may be missing). *)
Inductive FindResult :=
| FindErr (e : Err)
| FindNone
| FindDoc (routes : option (list string)).

(** The application route registry. [save] is [data.save()] on the
    document found under [prefix]; the router passes no callback, so
    whatever [save] does (or fails to do) is seen in the registry only. *)
Class Registry (Reg : Type) := {
  findOne : string → Reg → FindResult;
  save : string → list string → Reg → Reg
}.

(** ** The handler monad *)

(** [EThrow] is a [TypeError] raised in a callback of the store: the
    handler does nothing after it, and no response is sent for the
    request by the router. *)
Inductive Event :=
| EAcl (c : AclCall)
| EFindOne (prefix : string)
| ESave (prefix : string) (routes : list string)
| ENext (e : Err)
| EJson (v : Value)
| ESend (v : Value)
| EThrow.

Record World (St Reg : Type) := mkWorldAt {
  acl : St;
  db : Reg;
  heap : Heap;
  trace : list Event
}.
Arguments mkWorldAt {St Reg} _ _ _ _.
Arguments acl {St Reg} _.
Arguments db {St Reg} _.
Arguments heap {St Reg} _.
Arguments trace {St Reg} _.

(** A world in a process whose [Object.prototype] is untouched. *)
Abbreviation mkWorld s d t := (mkWorldAt s d untouched t).

Definition M (St Reg A : Type) : Type := World St Reg → A * World St Reg.

Definition ret {St Reg A} (a : A) : M St Reg A := fun w => (a, w).

Definition bind {St Reg A B} (m : M St Reg A) (k : A → M St Reg B)
  : M St Reg B :=
  fun w => let (a, w') := m w in k a w'.

Notation "'let*' x ':=' m 'in' k" := (bind m (fun x => k))
  (at level 10, x name, m at level 100, k at level 200).

Definition emit {St Reg} (e : Event) : M St Reg unit :=
  fun w => (tt, mkWorldAt (acl w) (db w) (heap w) (trace w ++ [e])).

(** Reading the heap, and running a computation on it. *)
Definition getHeap {St Reg} : M St Reg Heap := fun w => (heap w, w).

Definition onHeap {St Reg A} (f : Heap → A * Heap) : M St Reg A :=
  fun w => let (a, g) := f (heap w) in
           (a, mkWorldAt (acl w) (db w) g (trace w)).

(** The responses in a trace, and the backend calls in a trace. *)
Definition isResponse (e : Event) : bool :=
  match e with
  | ENext _ | EJson _ | ESend _ => true
  | _ => false
  end.

Definition responses (t : list Event) : list Event := List.filter isResponse t.

Fixpoint aclCalls (t : list Event) : list AclCall :=
  match t with
  | [] => []
  | EAcl c :: t' => c :: aclCalls t'
  | _ :: t' => aclCalls t'
  end.

Fixpoint registryCalls (t : list Event) : list Event :=
  match t with
  | [] => []
  | EFindOne p :: t' => EFindOne p :: registryCalls t'
  | ESave p r :: t' => ESave p r :: registryCalls t'
  | _ :: t' => registryCalls t'
  end.

Definition isMutation (c : AclCall) : bool :=
  match c with
  | CAllow _ _ _ | CAllowEx _ | CRemoveAllow _ _ _ | CRemoveRole _ => true
  | _ => false
  end.

(** A response with a body ([res.json], [res.send]), as against
    [next(err)]. *)
Definition isSuccess (e : Event) : bool :=
  match e with
  | EJson _ | ESend _ => true
  | _ => false
  end.

(** What a request shows of itself outside the registry: the store it
    leaves, the calls it made on the store, and its responses. *)
Definition outcome {St Reg} (w : World St Reg)
  : St * list AclCall * list Event :=
  (acl w, aclCalls (trace w), responses (trace w)).

Section Router.

Context {St Reg : Type} `{!AclBackend St} `{!Registry Reg}.

Abbreviation Mon := (M St Reg).

(** A query on the store: logged, state untouched. *)
Definition aclQuery {A} (c : AclCall) (f : St → A) : Mon A :=
  fun w => (f (acl w), mkWorldAt (acl w) (db w) (heap w) (trace w ++ [EAcl c])).

(** A mutation of the store: logged, state replaced. *)
Definition aclUpdate (c : AclCall) (f : St → option Err * St)
  : Mon (option Err) :=
  fun w => let (e, s') := f (acl w) in
           (e, mkWorldAt s' (db w) (heap w) (trace w ++ [EAcl c])).

Definition regFindOne (prefix : string) : Mon FindResult :=
  fun w => (findOne prefix (db w),
            mkWorldAt (acl w) (db w) (heap w) (trace w ++ [EFindOne prefix])).

Definition regSave (prefix : string) (routes : list string) : Mon unit :=
  fun w => (tt, mkWorldAt (acl w) (save prefix routes (db w)) (heap w)
                          (trace w ++ [ESave prefix routes])).

Definition next (e : Err) : Mon unit := emit (ENext e).
Definition json (v : Value) : Mon unit := emit (EJson v).
Definition send (v : Value) : Mon unit := emit (ESend v).

(** A [TypeError] raised in the callback of a task's query: the task never
    calls back. *)
Definition throw {A} : Mon (list A) := let* _ := emit EThrow in ret [].

(** ** [async.auto]

    A task is a name, the names it waits for, and a body. The body gets the
    results so far and a callback; what it returns here is the list of its
    invocations of that callback, in order: [done(err, value)] is the pair
    [(err, value)]. A task that never calls back returns the empty list.

    The driver runs a task once all the tasks it waits for have a result.
    It acts on the first invocation of the callback: an error goes to the
    final callback at once and nothing further is started; otherwise the
    value is stored under the task's name. When every task has a result
    the final callback gets them all. *)

Definition Completion : Type := option Err * Value.
Definition Results : Type := list (string * Value).

Fixpoint getResult (k : string) (r : Results) : option Value :=
  match r with
  | [] => None
  | (k', v) :: r' => if String.eqb k' k then Some v else getResult k r'
  end.

Record Task := mkTask {
  t_name : string;
  t_deps : list string;
  t_run : Results → Mon (list Completion)
}.

Definition ready (r : Results) (t : Task) : bool :=
  forallb (fun d => truthy (getResult d r)) (t_deps t).

Fixpoint pick (r : Results) (ts : list Task) : option (Task * list Task) :=
  match ts with
  | [] => None
  | t :: ts' =>
      if ready r t then Some (t, ts')
      else match pick r ts' with
           | Some (u, rest) => Some (u, t :: rest)
           | None => None
           end
  end.

Fixpoint auto_run (fuel : nat) (ts : list Task) (r : Results)
  : Mon (option (option Err * Results)) :=
  match fuel with
  | 0 => ret None
  | S fuel' =>
      match ts with
      | [] => ret (Some (None, r))
      | _ =>
          match pick r ts with
          | None => ret None
          | Some (t, rest) =>
              let* cs := t_run t r in
              match cs with
              | [] => ret None
              | (Some e, v) :: _ => ret (Some (Some e, r ++ [(t_name t, v)]))
              | (None, v) :: _ => auto_run fuel' rest (r ++ [(t_name t, v)])
              end
          end
      end
  end.

Definition async_auto (ts : list Task)
    (callback : option Err → Results → Mon unit) : Mon unit :=
  let* out := auto_run (S (length ts)) ts [] in
  match out with
  | Some (e, r) => callback e r
  | None => ret tt
  end.

(** [done(err)], [done()] and [done(null, v)] as the single invocation of a
    task that calls back once. *)
Definition done (e : option Err) (v : Value) : Mon (list Completion) :=
  ret [(e, v)].

(** ** [updateAppRoutes] *)

(** [resc[0] !== '/'] *)
Definition notSlashFirst (resc : string) : bool :=
  match resc with
  | String c _ => negb (Ascii.eqb c "/")
  | EmptyString => true
  end.

(** [resc.split('/')[0]]: the characters before the first ['/'], all of
    [resc] when it has none. *)
Fixpoint splitHead (resc : string) : string :=
  match resc with
  | EmptyString => EmptyString
  | String c s => if Ascii.eqb c "/" then EmptyString
                  else String c (splitHead s)
  end.

(** The resources a request names: the [resources] of every entry of
    [allows], concatenated, or else [req.body.resources]. Both callers
    have checked by then that [allows] or [resources] is there. *)
Definition requestResources (b : Body) : list string :=
  match b_allows b with
  | Some allows =>
      fold_left (fun resources obj => resources ++ a_resources obj) allows []
  | None => arr (b_resources b)
  end.

(** The same body with every resource that begins with ['/'] left out. *)
Definition withoutSlashFirst (b : Body) : Body :=
  mkBody (b_roles b)
         (option_map
            (map (fun obj => mkAllow
                               (List.filter notSlashFirst (a_resources obj))
                               (a_permissions obj)))
            (b_allows b))
         (option_map (List.filter notSlashFirst) (b_resources b))
         (b_permissions b).

(** [newAppRoutes] is a plain object, [{}]. What it holds under a name is
    an object made by the loop ([{}], with the [routes] array it may have
    of its own), or something that it inherited under that name and that
    the assignment [newAppRoutes[appName] = ...] then wrote back to it: a
    function of [Object.prototype], or the array [Object.prototype.routes]
    when an earlier run has left one there. Under [__proto__] it reads
    [Object.prototype] itself, and holds nothing. *)
Inductive App :=
| AObject (routes : option (list string))
| AFunction (name : string)
| ARoutes
| APrototype.

(** The own properties of [newAppRoutes], in the order of their
    creation. *)
Definition Groups : Type := list (string * App).

(** [newAppRoutes[appName]], read through the prototype chain. *)
Definition readApp (g : Heap) (own : Groups) (appName : string)
  : option App :=
  match assoc appName own with
  | Some app => Some app
  | None =>
      match inherited g appName with
      | VPrototype => Some APrototype
      | VFunction f => Some (AFunction f)
      | VArray _ => Some ARoutes
      | _ => None
      end
  end.

Fixpoint setOwn (k : string) (app : App) (own : Groups) : Groups :=
  match own with
  | [] => [(k, app)]
  | (k', a) :: own' =>
      if String.eqb k' k then (k', app) :: own'
      else (k', a) :: setOwn k app own'
  end.

(** [newAppRoutes[appName] = app]. Under [__proto__] the assignment sets
    the prototype of [newAppRoutes], to the [Object.prototype] it has:
    no property is created. *)
Definition assign (appName : string) (app : App) (own : Groups) : Groups :=
  if String.eqb appName "__proto__" then own else setOwn appName app own.

(** [app.routes], read through the prototype chain: a function inherits
    from [Object.prototype] as well. *)
Definition appRoutes (g : Heap) (app : App) : option (list string) :=
  match app with
  | AObject (Some routes) => Some routes
  | AFunction f =>
      match memberRoutes g !! f with
      | Some routes => Some routes
      | None => protoRoutes g
      end
  | _ => protoRoutes g
  end.

(** [if (!app.routes) { app.routes = []; } app.routes.push(resc);]
    An array that [app] inherits is truthy, so the push goes to the array
    of [Object.prototype] then; the assignment creates the array on [app]
    itself, which for [Object.prototype] and for its functions is a
    change of the heap. *)
Definition pushRoute (app : App) (resc : string) (g : Heap) : App * Heap :=
  match appRoutes g app with
  | Some routes =>
      match app with
      | AObject (Some _) => (AObject (Some (routes ++ [resc])), g)
      | AFunction f =>
          match memberRoutes g !! f with
          | Some _ => (app, withMember f (routes ++ [resc]) g)
          | None => (app, withProto (routes ++ [resc]) g)
          end
      | _ => (app, withProto (routes ++ [resc]) g)
      end
  | None =>
      match app with
      | AObject _ => (AObject (Some [resc]), g)
      | AFunction f => (app, withMember f [resc] g)
      | _ => (app, withProto [resc] g)
      end
  end.

(** The body of [resources.forEach]. *)
Definition groupStep (st : Groups * Heap) (resc : string) : Groups * Heap :=
  let (newAppRoutes, g) := st in
  if notSlashFirst resc then
    let appName := splitHead resc in
    let app := default (AObject None) (readApp g newAppRoutes appName) in
    let (app', g') := pushRoute app resc g in
    (assign appName app' newAppRoutes, g')
  else st.

Definition groupRoutes (resources : list string) (g : Heap)
  : Groups * Heap :=
  fold_left groupStep resources ([], g).

(** A name that is an array index: the decimal numeral, without leading
    zeros, of a number below [2^32 - 1]. *)
Definition digit (c : ascii) : option N :=
  let n := N_of_ascii c in
  if ((48 <=? n) && (n <=? 57))%N then Some (n - 48)%N else None.

Fixpoint numeral (s : string) (acc : N) : option N :=
  match s with
  | EmptyString => Some acc
  | String c s' =>
      match digit c with
      | Some k => numeral s' (10 * acc + k)%N
      | None => None
      end
  end.

Definition arrayIndex (s : string) : option N :=
  match s with
  | EmptyString => None
  | String c s' =>
      if Ascii.eqb c "0" && negb (String.eqb s' "") then None
      else match numeral s 0 with
           | Some n => if (n <? 4294967295)%N then Some n else None
           | None => None
           end
  end.

Fixpoint insertIndex (x : N * string) (l : list (N * string))
  : list (N * string) :=
  match l with
  | [] => [x]
  | y :: l' => if (fst x <=? fst y)%N then x :: l else y :: insertIndex x l'
  end.

Definition sortIndices (l : list (N * string)) : list (N * string) :=
  fold_right insertIndex [] l.

(** The order in which JavaScript lists property names: the array indices
    first, in ascending order, then the other names in the order of their
    creation. *)
Definition propertyOrder (names : list string) : list string :=
  map snd (sortIndices
             (omap (fun k => option_map (fun i => (i, k)) (arrayIndex k))
                   names))
  ++ List.filter (fun k => negb (truthy (arrayIndex k))) names.

(** [Object.getOwnPropertyNames(newAppRoutes)] *)
Definition ownPropertyNames (own : Groups) : list string :=
  propertyOrder (map fst own).

(** The inner loop: push every new route that [data.routes] lacks. *)
Definition mergeRoutes (dataRoutes new : list string) : list string :=
  fold_left
    (fun routes r =>
       if (indexOf r routes =? -1)%Z then routes ++ [r] else routes)
    new dataRoutes.

(** [newAppRoutes[prefix].routes] as a callback of [findOne] reads it. *)
Definition routesOf (g : Heap) (own : Groups) (prefix : string)
  : list string :=
  match assoc prefix own with
  | Some app => default [] (appRoutes g app)
  | None => []
  end.

(** [prefixes.forEach]: every lookup is issued at once, in the order of
    the prefixes; the callbacks run later. What a lookup finds is what the
    registry has when the lookups are issued. *)
Fixpoint findEach (prefixes : list string)
  : Mon (list (string * FindResult)) :=
  match prefixes with
  | [] => ret []
  | prefix :: rest =>
      let* found := regFindOne prefix in
      let* others := findEach rest in
      ret ((prefix, found) :: others)
  end.

(** The callback of a lookup: when the application is there, save it with
    the merged routes. A failed lookup returns. [data] is a document of
    the registry's model and reads its own field [routes]: one that is
    missing is falsy, whatever [Object.prototype] holds. *)
Definition answerFound (newAppRoutes : Groups) (lookup : string * FindResult)
  : Mon unit :=
  match snd lookup with
  | FindErr _ => ret tt
  | FindNone => ret tt
  | FindDoc routes =>
      let* g := getHeap in
      regSave (fst lookup)
        (mergeRoutes (default [] routes)
                     (routesOf g newAppRoutes (fst lookup)))
  end.

Fixpoint forEachM {A} (f : A → Mon unit) (l : list A) : Mon unit :=
  match l with
  | [] => ret tt
  | x :: l' => let* _ := f x in forEachM f l'
  end.

(** The callbacks are taken in the order of their lookups. *)
Definition updateAppRoutes (req : Req) : Mon unit :=
  let resources := requestResources (body req) in
  let* newAppRoutes := onHeap (groupRoutes resources) in
  let prefixes := ownPropertyNames newAppRoutes in
  let* found := findEach prefixes in
  forEachM (answerFound newAppRoutes) found.

(** What a callback saves, if it saves: the prefix and the merged
    routes. *)
Definition savedRoutes (g : Heap) (newAppRoutes : Groups)
    (lookup : string * FindResult) : option (string * list string) :=
  match snd lookup with
  | FindDoc routes =>
      Some (fst lookup,
            mergeRoutes (default [] routes)
                        (routesOf g newAppRoutes (fst lookup)))
  | _ => None
  end.

Definition saveEvent (x : string * list string) : Event :=
  ESave (fst x) (snd x).

Definition saveOne {Reg} `{!Registry Reg} (d : Reg) (x : string * list string)
  : Reg :=
  save (fst x) (snd x) d.

(** The names under which the loop creates a property, in the order of
    their creation: the prefix of every resource that does not begin with
    ['/'], once, and never [__proto__]. *)
Definition addName (names : list string) (appName : string) : list string :=
  if String.eqb appName "__proto__"
     || negb (indexOf appName names =? -1)%Z
  then names else names ++ [appName].

Definition groupNames (resources : list string) : list string :=
  fold_left addName (map splitHead (List.filter notSlashFirst resources)) [].

(** The routes with which the group of [p] starts, or would start were it
    created now: what the heap holds for it from earlier runs. *)
Definition startingRoutes (g : Heap) (own : Groups) (p : string)
  : list string :=
  match readApp g own p with
  | Some app => default [] (appRoutes g app)
  | None => default [] (protoRoutes g)
  end.

(** A state of the loop in which nothing is shared: [Object.prototype]
    has no [routes], a function of [Object.prototype] stands under its
    own name, and every other group is an object with its own array. *)
Definition tidy (own : Groups) (g : Heap) : Prop :=
  protoRoutes g = None
  ∧ ∀ k app, assoc k own = Some app →
      (app = AFunction k ∧ is_Some (arityOf k))
      ∨ (∃ routes, app = AObject (Some routes) ∧ arityOf k = None).

(** ** The handlers *)

Definition status400 (msg : string) : Err := mkErr msg (Some 400).

(** [!req.body.allows && (!req.body.resources || !req.body.permissions)] *)
Definition lacksGrants (b : Body) : bool :=
  negb (truthy (b_allows b))
  && (negb (truthy (b_resources b)) || negb (truthy (b_permissions b))).

(** [POST /roles] *)
Definition post_roles (req : Req) : Mon unit :=
  async_auto
    [ mkTask "validate" [] (fun _ =>
        let roleName := b_roles (body req) in
        if negb (truthyStr roleName) then
          done (Some (status400 "Roles required!")) VUndefined
        else if lacksGrants (body req) then
          done (Some (status400
                  "Allows, or Resources and Permissions required!"))
               VUndefined
        else
          let* r := aclQuery CListRoles listRoles in
          match r with
          | inl err => done (Some err) VUndefined
          | inr roles =>
              if negb (indexOf (orEmpty roleName) roles =? -1)%Z then
                done (Some (status400
                        ("The role " ++ orEmpty roleName
                                     ++ " already exists.")))
                     VUndefined
              else done None VUndefined
          end);
      mkTask "addRole" ["validate"] (fun _ =>
        let* err :=
          (if truthy (b_allows (body req)) then
             aclUpdate (CAllowEx [body req]) (allowEx [body req])
           else
             let roles := orEmpty (b_roles (body req)) in
             let resources := Arr (arr (b_resources (body req))) in
             let permissions := arr (b_permissions (body req)) in
             aclUpdate (CAllow roles resources permissions)
                       (allow roles resources permissions)) in
        let* _ := updateAppRoutes req in
        done err VUndefined) ]
    (fun err _ =>
       match err with
       | Some e => next e
       | None =>
           let* r := aclQuery CListRoles listRoles in
           match r with
           | inl e => next e
           | inr roles => json (VArray roles)
           end
       end).

(** The callback of [whatResources] in the [get] task of
    [GET /roles/:roleName]: [if (err) { done(err); } done(null, result);]
    with no [return] in the first branch. *)
Definition get_callback (err : option Err) (result : Value)
  : list Completion :=
  (match err with
   | Some e => [(Some e, VUndefined)]
   | None => []
   end) ++ [(None, result)].

(** The [get] task itself. On an error [whatResources] passes no result. *)
Definition get_task (roleName : string) : Mon (list Completion) :=
  let* r := aclQuery (CWhatResources roleName) (whatResources roleName) in
  match r with
  | inl e => ret (get_callback (Some e) VUndefined)
  | inr result => ret (get_callback None (VObject result))
  end.

(** [GET /roles/:roleName] *)
Definition get_role (req : Req) : Mon unit :=
  let roleName := orEmpty (p_roleName (params req)) in
  async_auto
    [ mkTask "validate" [] (fun _ =>
        let* err := aclQuery (CExistsRole roleName) (existsRole roleName) in
        done err VUndefined);
      mkTask "get" ["validate"] (fun _ => get_task roleName) ]
    (fun err result =>
       match err with
       | Some e => next e
       | None => json (default VUndefined (getResult "get" result))
       end).

(** [DELETE /roles/:roleName] *)
Definition delete_role (req : Req) : Mon unit :=
  let roleName := orEmpty (p_roleName (params req)) in
  async_auto
    [ mkTask "validate" [] (fun _ =>
        if String.eqb roleName "admin" then
          done (Some (mkErr ("The role " ++ roleName ++ " is indestructible")
                            (Some 403)))
               VUndefined
        else
          let* err := aclQuery (CExistsRole roleName) (existsRole roleName) in
          done err VUndefined);
      mkTask "delete" ["validate"] (fun _ =>
        let* err := aclUpdate (CRemoveRole roleName) (removeRole roleName) in
        match err with
        | Some e => done (Some e) VUndefined
        | None => done None VUndefined
        end) ]
    (fun err _ =>
       match err with
       | Some e => next e
       | None =>
           let* r := aclQuery CListRoles listRoles in
           match r with
           | inl e => next e
           | inr roles => json (VArray roles)
           end
       end).

(** [role.roles = roleName] on [req.body]. *)
Definition setRoles (roleName : string) (b : Body) : Body :=
  mkBody (Some roleName) (b_allows b) (b_resources b) (b_permissions b).

(** [POST /roles/:roleName/resources]. In the [allows] branch [role] is
    [req.body] itself, so the assignment to [role.roles] is seen by
    [updateAppRoutes(req)] as well. *)
Definition post_resources (req : Req) : Mon unit :=
  let roleName := orEmpty (p_roleName (params req)) in
  async_auto
    [ mkTask "validate" [] (fun _ =>
        if lacksGrants (body req) then
          done (Some (status400
                  "Allows, or Resources and Permissions required!"))
               VUndefined
        else done None VUndefined);
      mkTask "checkRole" ["validate"] (fun _ =>
        let* err := aclQuery (CExistsRole roleName) (existsRole roleName) in
        done err VUndefined);
      mkTask "addResources" ["checkRole"] (fun _ =>
        if truthy (b_allows (body req)) then
          let role := setRoles roleName (body req) in
          let* err := aclUpdate (CAllowEx [role]) (allowEx [role]) in
          let* _ := updateAppRoutes (mkReq (params req) role) in
          done err VUndefined
        else
          let resources := Arr (arr (b_resources (body req))) in
          let permissions := arr (b_permissions (body req)) in
          let* err := aclUpdate (CAllow roleName resources permissions)
                                (allow roleName resources permissions) in
          let* _ := updateAppRoutes req in
          done err VUndefined) ]
    (fun err _ =>
       match err with
       | Some e => next e
       | None =>
           let* r := aclQuery (CWhatResources roleName)
                              (whatResources roleName) in
           match r with
           | inl e => next e
           | inr result => json (VObject result)
           end
       end).

(** ['The resource ' + resource + ' in ' + roleName + ' doesn\'t exist.'] *)
Definition noResource (resource roleName : string) : Err :=
  status400 ("The resource " ++ resource ++ " in " ++ roleName
                             ++ " doesn't exist.").

(** [result[resource] || []] *)
Definition orArray (v : Value) : Value :=
  if truthyValue v then v else VArray [].

(** [POST /roles/:roleName/resources/*/permissions] *)
Definition post_permissions (req : Req) : Mon unit :=
  let roleName := orEmpty (p_roleName (params req)) in
  let resource := orEmpty (p_0 (params req)) in
  async_auto
    [ mkTask "checkRole" [] (fun _ =>
        let* err := aclQuery (CExistsRole roleName) (existsRole roleName) in
        done err VUndefined);
      mkTask "validate" ["checkRole"] (fun _ =>
        if negb (truthy (b_permissions (body req))) then
          done (Some (status400 "Permissions required!")) VUndefined
        else
          let* r := aclQuery (CWhatResources roleName)
                             (whatResources roleName) in
          match r with
          | inl err => done (Some err) VUndefined
          | inr result =>
              let* g := getHeap in
              if negb (truthyValue (member g result resource)) then
                done (Some (noResource resource roleName)) VUndefined
              else done None VUndefined
          end);
      mkTask "addPermissions" ["validate"] (fun _ =>
        let permissions := arr (b_permissions (body req)) in
        let* err := aclUpdate (CAllow roleName (Str resource) permissions)
                              (allow roleName (Str resource) permissions) in
        done err VUndefined) ]
    (fun err _ =>
       match err with
       | Some e => next e
       | None =>
           let* r := aclQuery (CWhatResources roleName)
                              (whatResources roleName) in
           match r with
           | inl e => next e
           | inr result =>
               let* g := getHeap in json (member g result resource)
           end
       end).

(** [DELETE /roles/:roleName/resources/*/permissions/:permissionName].
    [result[resource].indexOf] is a function for an array only: on
    anything else the call raises a [TypeError]. *)
Definition delete_permission (req : Req) : Mon unit :=
  let roleName := orEmpty (p_roleName (params req)) in
  let resource := orEmpty (p_0 (params req)) in
  let permission := orEmpty (p_permissionName (params req)) in
  async_auto
    [ mkTask "checkRole" [] (fun _ =>
        let* err := aclQuery (CExistsRole roleName) (existsRole roleName) in
        done err VUndefined);
      mkTask "validate" ["checkRole"] (fun _ =>
        let* r := aclQuery (CWhatResources roleName)
                           (whatResources roleName) in
        match r with
        | inl err => done (Some err) VUndefined
        | inr result =>
            let* g := getHeap in
            let found := member g result resource in
            if negb (truthyValue found) then
              done (Some (noResource resource roleName)) VUndefined
            else if shorterThan 2 found then
              done (Some (status400
                      ("The permission " ++ permission
                         ++ " can't be remove because is the last")))
                   VUndefined
            else
              match found with
              | VArray perms =>
                  if (indexOf permission perms =? -1)%Z then
                    done (Some (status400
                            ("The permission " ++ permission
                               ++ " in the resource " ++ resource
                               ++ " in " ++ roleName ++ " doesn't exist.")))
                         VUndefined
                  else done None VUndefined
              | _ => throw
              end
        end);
      mkTask "removePermissions" ["validate"] (fun _ =>
        let* err := aclUpdate (CRemoveAllow roleName resource (Str permission))
                              (removeAllow roleName resource (Str permission))
        in
        match err with
        | Some e => done (Some e) VUndefined
        | None => done None VUndefined
        end) ]
    (fun err _ =>
       match err with
       | Some e => next e
       | None =>
           let* r := aclQuery (CWhatResources roleName)
                              (whatResources roleName) in
           match r with
           | inl e => next e
           | inr result =>
               let* g := getHeap in send (orArray (member g result resource))
           end
       end).

(** A value as the permissions argument of [removeAllow]. *)
Definition asPermissions (v : Value) : StrOrArr :=
  match v with
  | VArray l => Arr l
  | _ => Other v
  end.

(** [DELETE /roles/:roleName/resources/*]. When [whatResources] fails in
    [validate] the handler calls [next(err)] itself and the task never
    calls back. *)
Definition delete_resource (req : Req) : Mon unit :=
  let roleName := orEmpty (p_roleName (params req)) in
  let resource := orEmpty (p_0 (params req)) in
  async_auto
    [ mkTask "validate" [] (fun _ =>
        let* err := aclQuery (CExistsRole roleName) (existsRole roleName) in
        match err with
        | Some e => done (Some e) VUndefined
        | None =>
            let* r := aclQuery (CWhatResources roleName)
                               (whatResources roleName) in
            match r with
            | inl e => let* _ := next e in ret []
            | inr result =>
                let* g := getHeap in
                if negb (truthyValue (member g result resource)) then
                  done (Some (noResource resource roleName)) VUndefined
                else done None (member g result resource)
            end
        end);
      mkTask "deleteResources" ["validate"] (fun results =>
        let permissions :=
          asPermissions (default VUndefined (getResult "validate" results)) in
        let* err := aclUpdate (CRemoveAllow roleName resource permissions)
                              (removeAllow roleName resource permissions) in
        done err VUndefined) ]
    (fun err _ =>
       match err with
       | Some e => next e
       | None =>
           let* r := aclQuery (CWhatResources roleName)
                              (whatResources roleName) in
           match r with
           | inl e => next e
           | inr result => json (VObject result)
           end
       end).

(** The six requests that change the store, and the handler of each. *)
Inductive Mutating :=
| PostRoles
| DeleteRole
| PostResources
| PostPermissions
| DeletePermission
| DeleteResource.

Definition handle (ep : Mutating) (req : Req) : Mon unit :=
  match ep with
  | PostRoles => post_roles req
  | DeleteRole => delete_role req
  | PostResources => post_resources req
  | PostPermissions => post_permissions req
  | DeletePermission => delete_permission req
  | DeleteResource => delete_resource req
  end.

(** Running a handler on a store and a registry, from an empty trace, in
    a process whose [Object.prototype] is untouched. *)
Definition run (h : Mon unit) (s : St) (d : Reg) : World St Reg :=
  snd (h (mkWorld s d [])).

(** The query with which each of them re-reads the store before it
    answers: [listRoles] where a role was created or deleted,
    [whatResources] of the role otherwise. *)
Definition requery (ep : Mutating) (req : Req) : AclCall :=
  match ep with
  | PostRoles | DeleteRole => CListRoles
  | _ => CWhatResources (orEmpty (p_roleName (params req)))
  end.


(** ** The validation pipeline

    The checks of each mutating request, in the order in which its handler
    makes them. A check has a kind, the store queries it needs that no
    earlier check has made, and its verdict on the store: how it fails, if
    it does. A failing store query is the verdict of the first check that
    needs it. The checks read [result[resource]] as the handlers do in a
    process whose [Object.prototype] is untouched, which is where [run]
    starts a request. *)

Inductive CheckKind := Structural | Existence | Semantic.

(** A check fails by handing an error on ([done(err)], or [next(err)]), or
    by raising a [TypeError] while it is evaluated. *)
Inductive Failure :=
| Refused (e : Err)
| Raised.

(** What the request shows of a failure. *)
Definition failureEvent (f : Failure) : Event :=
  match f with
  | Refused e => ENext e
  | Raised => EThrow
  end.

Record Check := mkCheck {
  kind : CheckKind;
  consults : list AclCall;
  verdict : option Failure
}.

Definition refuseIf (b : bool) (e : Err) : option Failure :=
  if b then Some (Refused e) else None.

(** The verdict of a check that looks at a query's outcome [r]. *)
Definition onResult {A} (r : Err + A) (f : A → option Failure)
  : option Failure :=
  match r with
  | inl e => Some (Refused e)
  | inr a => f a
  end.

(** The verdict of a later check on the same outcome: a failed query has
    been reported by then. *)
Definition thenOn {A} (r : Err + A) (f : A → option Failure)
  : option Failure :=
  match r with
  | inl _ => None
  | inr a => f a
  end.

Definition checks (ep : Mutating) (req : Req) (s : St) : list Check :=
  let roleName := orEmpty (p_roleName (params req)) in
  let resource := orEmpty (p_0 (params req)) in
  let permission := orEmpty (p_permissionName (params req)) in
  let grantsGiven :=
    mkCheck Structural []
      (refuseIf (lacksGrants (body req))
         (status400 "Allows, or Resources and Permissions required!")) in
  let roleExists :=
    mkCheck Existence [CExistsRole roleName]
      (option_map Refused (existsRole roleName s)) in
  let resourceExists :=
    mkCheck Existence [CWhatResources roleName]
      (onResult (whatResources roleName s) (fun result =>
         refuseIf (negb (truthyValue (member untouched result resource)))
                  (noResource resource roleName))) in
  match ep with
  | PostRoles =>
      [ mkCheck Structural []
          (refuseIf (negb (truthyStr (b_roles (body req))))
                    (status400 "Roles required!"));
        grantsGiven;
        mkCheck Existence [CListRoles]
          (onResult (listRoles s) (fun roles =>
             refuseIf
               (negb (indexOf (orEmpty (b_roles (body req))) roles =? -1)%Z)
               (status400 ("The role " ++ orEmpty (b_roles (body req))
                                       ++ " already exists.")))) ]
  | DeleteRole =>
      [ mkCheck Semantic []
          (refuseIf (String.eqb roleName "admin")
             (mkErr ("The role " ++ roleName ++ " is indestructible")
                    (Some 403)));
        roleExists ]
  | PostResources => [ grantsGiven; roleExists ]
  | PostPermissions =>
      [ roleExists;
        mkCheck Structural []
          (refuseIf (negb (truthy (b_permissions (body req))))
                    (status400 "Permissions required!"));
        resourceExists ]
  | DeletePermission =>
      [ roleExists;
        resourceExists;
        mkCheck Semantic []
          (thenOn (whatResources roleName s) (fun result =>
             refuseIf (shorterThan 2 (member untouched result resource))
               (status400 ("The permission " ++ permission
                             ++ " can't be remove because is the last"))));
        mkCheck Existence []
          (thenOn (whatResources roleName s) (fun result =>
             match member untouched result resource with
             | VArray perms =>
                 refuseIf (indexOf permission perms =? -1)%Z
                   (status400 ("The permission " ++ permission
                                 ++ " in the resource " ++ resource
                                 ++ " in " ++ roleName ++ " doesn't exist."))
             | _ => Some Raised
             end)) ]
  | DeleteResource => [ roleExists; resourceExists ]
  end.

(** Fail fast: the store queries made up to and including the first check
    that fails, and its failure; [None] when every check passes. *)
Fixpoint firstFailure (cs : list Check) : option (list AclCall * Failure) :=
  match cs with
  | [] => None
  | c :: cs' =>
      match verdict c with
      | Some f => Some (consults c, f)
      | None =>
          match firstFailure cs' with
          | Some (calls, f) => Some (consults c ++ calls, f)
          | None => None
          end
      end
  end.

End Router.

Arguments member : simpl never.
Arguments inherited : simpl never.
Arguments groupRoutes : simpl never.
Arguments ownPropertyNames : simpl never.
Arguments propertyOrder : simpl never.
Arguments routesOf : simpl never.
Arguments updateAppRoutes : simpl never.

(** ** A reference store *)

Module RefStore.

(** Role name to the resources of the role. *)
Abbreviation Store := (gmap string ResMap).

Definition notFound (role : string) : Err :=
  status400 ("The role " ++ role ++ " doesn't exist.").

Definition forbidden (role : string) : Err :=
  mkErr ("The role " ++ role ++ " is indestructible") (Some 403).

(** Union that keeps the order of [old] and adds what is new after it. *)
Definition unionPerms (old new : list string) : list string :=
  fold_left
    (fun acc p => if (indexOf p acc =? -1)%Z then acc ++ [p] else acc)
    new old.

Definition ensureRole (role : string) (s : Store) : Store :=
  <[role := default ∅ (s !! role)]> s.

Definition grant (role : string) (perms : list string)
    (s : Store) (res : string) : Store :=
  let m : ResMap := default ∅ (s !! role) in
  <[role := <[res := unionPerms (default [] (m !! res)) perms]> m]> s.

Definition grantAll (role : string) (resources perms : list string)
    (s : Store) : Store :=
  fold_left (grant role perms) resources (ensureRole role s).

Definition grantObject (s : Store) (obj : Body) : Store :=
  match b_roles obj with
  | None => s
  | Some role =>
      fold_left
        (fun s' a => grantAll role (a_resources a) (a_permissions a) s')
        (default [] (b_allows obj)) (ensureRole role s)
  end.

Definition revoke (role res : string) (perms : list string) (s : Store)
  : Store :=
  match s !! role with
  | None => s
  | Some m =>
      match m !! res with
      | None => s
      | Some old =>
          match List.filter (fun p => (indexOf p perms =? -1)%Z) old with
          | [] => <[role := delete res m]> s
          | rest => <[role := <[res := rest]> m]> s
          end
      end
  end.

(** Modelled from the spec: the access-control store that the router
    reaches as [req.app.acl], which is not part of the router's source.
    Each operation follows the store's contract: [listRoles] has no side
    effect; [existsRole] and [whatResources] fail with a not-found error
    (status 400) when the role is absent; [allow] unions the given
    permissions into the given resources of the role, without duplicates,
    creating the role and the resources that are absent, in both call
    shapes; [removeRole] fails with not-found on an absent role and
    refuses ["admin"]; [removeAllow] removes the given permissions from
    the resource. A resource owns a non-empty set of permissions, so a
    resource from which every permission has been removed is no longer a
    resource of the role: this is what the router's DELETE of a resource
    relies on when it answers with the resources that remain. The
    reference store has no backend failures. *)
#[export] Instance refStore : AclBackend (gmap string ResMap) := {|
  listRoles := fun s => inr (map fst (map_to_list s));
  existsRole := fun role s =>
    match s !! role with
    | Some _ => None
    | None => Some (notFound role)
    end;
  whatResources := fun role s =>
    match s !! role with
    | Some m => inr m
    | None => inl (notFound role)
    end;
  allow := fun role resources perms s =>
    (None, grantAll role (makeArray resources) perms s);
  allowEx := fun objs s => (None, fold_left grantObject objs s);
  removeAllow := fun role res perms s =>
    (None, revoke role res (makeArray perms) s);
  removeRole := fun role s =>
    if String.eqb role "admin" then (Some (forbidden role), s)
    else match s !! role with
         | Some _ => (None, delete role s)
         | None => (Some (notFound role), s)
         end
|}.

(** Every resource of every role has at least one permission. *)
Definition wellFormed (s : Store) : Prop :=
  ∀ (role : string) (m : ResMap) (res : string) (perms : list string),
    s !! role = Some m → m !! res = Some perms → (1 ≤ length perms)%nat.

End RefStore.

(** ** A store whose reads fail

    The reference store behind a backend that has lost its data: a role is
    still known to exist, but [listRoles] and [whatResources] come back
    with a backend error. *)

Module Outage.

Definition storeError : Err := mkErr "backend unavailable" None.

Definition lossy : AclBackend (gmap string ResMap) := {|
  listRoles := fun _ => inl storeError;
  existsRole := existsRole (AclBackend := RefStore.refStore);
  whatResources := fun _ _ => inl storeError;
  allow := allow (AclBackend := RefStore.refStore);
  allowEx := allowEx (AclBackend := RefStore.refStore);
  removeAllow := removeAllow (AclBackend := RefStore.refStore);
  removeRole := removeRole (AclBackend := RefStore.refStore)
|}.

End Outage.

(** ** Two registries *)

Module RefRegistry.

(** Prefix to routes; lookups never fail and a save replaces the routes. *)
#[export] Instance mapRegistry : Registry (gmap string (list string)) := {|
  findOne := fun prefix d =>
    match d !! prefix with
    | Some routes => FindDoc (Some routes)
    | None => FindNone
    end;
  save := fun prefix routes d => <[prefix := routes]> d
|}.

(** A registry that is down: every lookup fails, nothing is saved. *)
Definition down : Registry unit := {|
  findOne := fun _ _ => FindErr (mkErr "registry unavailable" None);
  save := fun _ _ d => d
|}.

End RefRegistry.

(** ** Sample requests *)

Definition noBody : Body := mkBody None None None None.

Definition request (roleName resource permission : string) (b : Body) : Req :=
  mkReq (mkParams (Some roleName) (Some resource) (Some permission)) b.

Definition editorStore : gmap string ResMap :=
  {[ "editor" := {[ "docs" := ["read"; "write"] ]} ]}.

Definition readerStore : gmap string ResMap :=
  {[ "reader" := {[ "docs" := ["read"] ]} ]}.

Definition noRoutes : gmap string (list string) := ∅.

(** ** The read-only requests *)

(** [req.app.acl.roleUsers]: the users that hold a role. *)
Class AclUsers (St : Type) := {
  roleUsers : string → St → Err + list string
}.

(** The four routes that only read. *)
Inductive Reading :=
| GetRoles
| GetRole
| GetResource
| GetUsers.

Section Reads.

Context {St Reg : Type} `{!AclBackend St} `{!AclUsers St} `{!Registry Reg}.

(** [GET /roles] *)
Definition get_roles (req : Req) : M St Reg unit :=
  let* r := aclQuery CListRoles listRoles in
  match r with
  | inl err => next err
  | inr roles => json (VArray roles)
  end.

(** [GET /roles/:roleName/resources/*] *)
Definition get_resource (req : Req) : M St Reg unit :=
  let roleName := orEmpty (p_roleName (params req)) in
  let resource := orEmpty (p_0 (params req)) in
  let* err := aclQuery (CExistsRole roleName) (existsRole roleName) in
  match err with
  | Some e => next e
  | None =>
      let* r := aclQuery (CWhatResources roleName) (whatResources roleName) in
      match r with
      | inl e => next e
      | inr result =>
          let* g := getHeap in
          if negb (truthyValue (member g result resource)) then
            next (noResource resource roleName)
          else json (member g result resource)
      end
  end.

(** [GET /roles/:roleName/users] *)
Definition get_users (req : Req) : M St Reg unit :=
  let roleName := orEmpty (p_roleName (params req)) in
  let* err := aclQuery (CExistsRole roleName) (existsRole roleName) in
  match err with
  | Some e => next e
  | None =>
      let* r := aclQuery (CRoleUsers roleName) (roleUsers roleName) in
      match r with
      | inl e => next e
      | inr users => json (VArray users)
      end
  end.

Definition serve (r : Reading) (req : Req) : M St Reg unit :=
  match r with
  | GetRoles => get_roles req
  | GetRole => get_role req
  | GetResource => get_resource req
  | GetUsers => get_users req
  end.

(** ** What a mutating request does once its checks have passed *)

(** The mutation that the handler calls, with its arguments. For the
    DELETE of a resource the permissions are what [result[resource]] was
    on the object that [whatResources] gave on the store [s]. *)
Definition mutationCall (ep : Mutating) (req : Req) (s : St) : AclCall :=
  let roleName := orEmpty (p_roleName (params req)) in
  let resource := orEmpty (p_0 (params req)) in
  let permission := orEmpty (p_permissionName (params req)) in
  let b := body req in
  match ep with
  | PostRoles =>
      if truthy (b_allows b) then CAllowEx [b]
      else CAllow (orEmpty (b_roles b)) (Arr (arr (b_resources b)))
                  (arr (b_permissions b))
  | DeleteRole => CRemoveRole roleName
  | PostResources =>
      if truthy (b_allows b) then CAllowEx [setRoles roleName b]
      else CAllow roleName (Arr (arr (b_resources b)))
                  (arr (b_permissions b))
  | PostPermissions =>
      CAllow roleName (Str resource) (arr (b_permissions b))
  | DeletePermission => CRemoveAllow roleName resource (Str permission)
  | DeleteResource =>
      CRemoveAllow roleName resource
        (asPermissions
           (match whatResources roleName s with
            | inr result => member untouched result resource
            | inl _ => VUndefined
            end))
  end.

(** The store operation behind a call. *)
Definition perform (c : AclCall) (s : St) : option Err * St :=
  match c with
  | CAllow role res perms => allow role res perms s
  | CAllowEx objs => allowEx objs s
  | CRemoveAllow role res perms => removeAllow role res perms s
  | CRemoveRole role => removeRole role s
  | _ => (None, s)
  end.

(** The answer of the final callback when no task has failed: the store
    is read again and either that fails or its result is sent. *)
Definition reread (ep : Mutating) (req : Req) (s : St) : Event :=
  let roleName := orEmpty (p_roleName (params req)) in
  let resource := orEmpty (p_0 (params req)) in
  match ep with
  | PostRoles | DeleteRole =>
      match listRoles s with
      | inl e => ENext e
      | inr roles => EJson (VArray roles)
      end
  | PostResources | DeleteResource =>
      match whatResources roleName s with
      | inl e => ENext e
      | inr result => EJson (VObject result)
      end
  | PostPermissions =>
      match whatResources roleName s with
      | inl e => ENext e
      | inr result => EJson (member untouched result resource)
      end
  | DeletePermission =>
      match whatResources roleName s with
      | inl e => ENext e
      | inr result => ESend (orArray (member untouched result resource))
      end
  end.

(** The two requests that call [updateAppRoutes], and the request it is
    called with: in the [allows] branch of POST /roles/:roleName/resources
    the body has had its [roles] set by then. *)
Definition notifies (ep : Mutating) : bool :=
  match ep with
  | PostRoles | PostResources => true
  | _ => false
  end.

Definition notified (ep : Mutating) (req : Req) : Req :=
  match ep with
  | PostResources =>
      if truthy (b_allows (body req))
      then mkReq (params req)
                 (setRoles (orEmpty (p_roleName (params req))) (body req))
      else req
  | _ => req
  end.

End Reads.

(** The prefixes that a trace looks up in the registry, in order. *)
Fixpoint lookups (t : list Event) : list string :=
  match t with
  | [] => []
  | EFindOne p :: t' => p :: lookups t'
  | _ :: t' => lookups t'
  end.

(** The saves of a trace, in order. *)
Fixpoint saves (t : list Event) : list (string * list string) :=
  match t with
  | [] => []
  | ESave p routes :: t' => (p, routes) :: saves t'
  | _ :: t' => saves t'
  end.

(** Whether a string has a ['/'] in it. *)
Fixpoint hasSlash (s : string) : bool :=
  match s with
  | EmptyString => false
  | String c s' => Ascii.eqb c "/" || hasSlash s'
  end.

(** A reference for [roleUsers] on the reference store: nobody holds any
    role. *)
Module RefUsers.

#[export] Instance nobody : AclUsers (gmap string ResMap) := {|
  roleUsers := fun role s =>
    match s !! role with
    | Some _ => inr []
    | None => inl (RefStore.notFound role)
    end
|}.

End RefUsers.

(** Whether [updateAppRoutes] groups [resc] under the application [p]. *)
Definition groupedUnder (p resc : string) : bool :=
  notSlashFirst resc && String.eqb (splitHead resc) p.

Section Origins.

Context {St : Type} `{!AclBackend St}.

(** An error that the store itself reports on the state [s]: by a query
    or by a mutation. *)
Definition reportedOn (s : St) (e : Err) : Prop :=
  listRoles s = inl e
  ∨ (∃ role, existsRole role s = Some e)
  ∨ (∃ role, whatResources role s = inl e)
  ∨ (∃ c, fst (perform c s) = Some e).

End Origins.

(** The body that a response carries. *)
Definition bodyOf (e : Event) : option Value :=
  match e with
  | EJson v | ESend v => Some v
  | _ => None
  end.

(** The GET that shows what a mutating request has changed. *)
Definition readOf (ep : Mutating) : Reading :=
  match ep with
  | PostRoles | DeleteRole => GetRoles
  | PostResources | DeleteResource => GetRole
  | PostPermissions | DeletePermission => GetResource
  end.

Section Documents.

Context {Reg : Type} `{!Registry Reg}.

(** The registry keeps one document for a prefix: a save under one prefix
    is not seen under another, a saved document is found with the routes
    saved, and saving a document with the routes it has changes nothing. *)
Definition keepsDocuments : Prop :=
  (∀ (p q : string) routes d, p ≠ q →
     findOne p (save q routes d) = findOne p d)
  ∧ (∀ (q : string) routes found d,
       findOne q d = FindDoc found →
       findOne q (save q routes d) = FindDoc (Some routes))
  ∧ (∀ (q : string) routes d,
       findOne q d = FindDoc (Some routes) → save q routes d = d).

End Documents.

(** ** More sample data *)

Definition gleanerRoutes : gmap string (list string) :=
  {[ "gleaner" := ["gleaner/a"] ]}.

Definition authorRequest : Req :=
  mkReq (mkParams None None None)
        (mkBody (Some "author") None (Some ["a"; "gleaner/x"; "/z"])
                (Some ["read"])).

(** A request with a resource whose prefix is [__proto__], and a registry
    that has an application of that name. *)
Definition protoRequest : Req :=
  mkReq (mkParams None None None)
        (mkBody (Some "author") None (Some ["__proto__/x"; "gleaner/y"])
                (Some ["read"])).

Definition protoRegistry : gmap string (list string) :=
  {[ "gleaner" := ["gleaner/a"]; "__proto__" := [] ]}.

(** The heap once a request has named the resource [__proto__/x]. *)
Definition sharedHeap : Heap := withProto ["__proto__/x"] untouched.

(** * Properties *)

(** ** The trace projections *)

Lemma responses_app (a b : list Event) :
  responses (a ++ b) = responses a ++ responses b.
Proof.
  unfold responses. induction a as [|e a IH]; simpl; [done|].
  destruct (isResponse e); simpl; by rewrite IH.
Qed.

Lemma aclCalls_app (a b : list Event) :
  aclCalls (a ++ b) = aclCalls a ++ aclCalls b.
Proof. induction a as [|[] a IH]; simpl; by rewrite ?IH. Qed.


Lemma registryCalls_app (a b : list Event) :
  registryCalls (a ++ b) = registryCalls a ++ registryCalls b.
Proof. induction a as [|[] a IH]; simpl; by rewrite ?IH. Qed.

Lemma lookups_app (a b : list Event) : lookups (a ++ b) = lookups a ++ lookups b.
Proof. induction a as [|[] a IH]; simpl; by rewrite ?IH. Qed.

Lemma saves_app (a b : list Event) : saves (a ++ b) = saves a ++ saves b.
Proof. induction a as [|[] a IH]; simpl; by rewrite ?IH. Qed.

(** ** [indexOf] *)

Lemma indexOf_ge (x : string) (l : list string) : (-1 ≤ indexOf x l)%Z.
Proof.
  induction l as [|y l IH]; simpl; [done|].
  destruct (String.eqb y x); [done|].
  destruct (indexOf x l =? -1)%Z; lia.
Qed.

Lemma indexOf_elem (x : string) (l : list string) :
  x ∈ l ↔ indexOf x l ≠ (-1)%Z.
Proof.
  induction l as [|y l IH]; simpl.
  - rewrite elem_of_nil. done.
  - rewrite elem_of_cons. destruct (String.eqb y x) eqn:E.
    + apply String.eqb_eq in E. subst. split; [done|by left].
    + apply String.eqb_neq in E. pose proof (indexOf_ge x l).
      destruct (indexOf x l =? -1)%Z eqn:E2.
      * apply Z.eqb_eq in E2. split; [|done]. intros [->|Hin]; [done|].
        by apply IH in Hin.
      * apply Z.eqb_neq in E2. split; [lia|]. intros _. right. by apply IH.
Qed.

Lemma filter_absent_self (perms l : list string) :
  (∀ p, p ∈ l → p ∈ perms) →
  List.filter (fun p => (indexOf p perms =? -1)%Z) l = [].
Proof.
  induction l as [|p l IH]; intros Hl; simpl; [done|].
  destruct (indexOf p perms =? -1)%Z eqn:E.
  - apply Z.eqb_eq in E. exfalso. eapply indexOf_elem; [|done].
    apply Hl. by left.
  - apply IH. intros q Hq. apply Hl. by right.
Qed.

(** ** The property names of [newAppRoutes] *)

Lemma assoc_setOwn (k p : string) (app : App) (own : Groups) :
  assoc p (setOwn k app own)
  = if String.eqb k p then Some app else assoc p own.
Proof.
  induction own as [|[k' a] own IH]; simpl.
  - by destruct (String.eqb k p).
  - destruct (String.eqb k' k) eqn:E; simpl.
    + apply String.eqb_eq in E. subst k'. by destruct (String.eqb k p).
    + destruct (String.eqb k' p) eqn:E2; [|done].
      apply String.eqb_eq in E2. subst k'.
      rewrite String.eqb_sym in E. by rewrite E.
Qed.

Lemma assoc_keys {A} (p : string) (l : list (string * A)) :
  p ∈ map fst l ↔ is_Some (assoc p l).
Proof.
  induction l as [|[k a] l IH]; simpl.
  - rewrite elem_of_nil. split; [done|]. by intros [? ?].
  - rewrite elem_of_cons, IH. destruct (String.eqb k p) eqn:E.
    + apply String.eqb_eq in E. subst. split; [by eexists|by left].
    + apply String.eqb_neq in E. naive_solver.
Qed.

Lemma setOwn_keys (k : string) (app : App) (own : Groups) :
  map fst (setOwn k app own)
  = if (indexOf k (map fst own) =? -1)%Z then map fst own ++ [k]
    else map fst own.
Proof.
  induction own as [|[k' a] own IH]; simpl; [done|].
  destruct (String.eqb k' k) eqn:E; simpl; [done|].
  rewrite IH. pose proof (indexOf_ge k (map fst own)).
  destruct (indexOf k (map fst own) =? -1)%Z eqn:E2; simpl; [done|].
  apply Z.eqb_neq in E2.
  destruct (indexOf k (map fst own) + 1 =? -1)%Z eqn:E3; [|done].
  apply Z.eqb_eq in E3. lia.
Qed.

Lemma assign_keys (k : string) (app : App) (own : Groups) :
  map fst (assign k app own) = addName (map fst own) k.
Proof.
  unfold assign, addName. destruct (String.eqb k "__proto__"); simpl; [done|].
  rewrite setOwn_keys. by destruct (indexOf k (map fst own) =? -1)%Z.
Qed.

Lemma groupFold_names (resources : list string) (own : Groups) (g : Heap) :
  map fst (fst (fold_left groupStep resources (own, g)))
  = fold_left addName (map splitHead (List.filter notSlashFirst resources))
              (map fst own).
Proof.
  revert own g. induction resources as [|r rs IH]; intros own g; simpl; [done|].
  destruct (notSlashFirst r) eqn:E; simpl; [|apply IH].
  destruct (pushRoute _ r g) as [app' g'] eqn:Hp.
  by rewrite IH, assign_keys.
Qed.

(** The names of the groups do not depend on the heap. *)
Lemma groupRoutes_names (resources : list string) (g : Heap) :
  map fst (fst (groupRoutes resources g)) = groupNames resources.
Proof. unfold groupRoutes, groupNames. by rewrite groupFold_names. Qed.

Lemma addName_elem (names : list string) (k p : string) :
  p ∈ addName names k ↔ p ∈ names ∨ (p = k ∧ k ≠ "__proto__").
Proof.
  unfold addName. destruct (String.eqb k "__proto__") eqn:E; simpl.
  - apply String.eqb_eq in E. naive_solver.
  - apply String.eqb_neq in E.
    destruct (indexOf k names =? -1)%Z eqn:E2; simpl.
    + rewrite elem_of_app, list_elem_of_singleton. naive_solver.
    + apply Z.eqb_neq in E2. apply indexOf_elem in E2. naive_solver.
Qed.

Lemma addName_NoDup (names : list string) (k : string) :
  NoDup names → NoDup (addName names k).
Proof.
  intros Hnd. unfold addName.
  destruct (String.eqb k "__proto__"); simpl; [done|].
  destruct (indexOf k names =? -1)%Z eqn:E; simpl; [|done].
  apply Z.eqb_eq in E. apply NoDup_app. split; [done|]. split.
  - intros x Hx ->%list_elem_of_singleton. by apply indexOf_elem in Hx.
  - apply NoDup_singleton.
Qed.

Lemma addNames_elem (ks names : list string) (p : string) :
  p ∈ fold_left addName ks names
  ↔ p ∈ names ∨ (p ∈ ks ∧ p ≠ "__proto__").
Proof.
  revert names. induction ks as [|k ks IH]; intros names; simpl.
  - rewrite elem_of_nil. naive_solver.
  - rewrite IH, addName_elem, elem_of_cons. naive_solver.
Qed.

Lemma addNames_NoDup (ks names : list string) :
  NoDup names → NoDup (fold_left addName ks names).
Proof.
  revert names. induction ks as [|k ks IH]; intros names Hnd; simpl; [done|].
  by apply IH, addName_NoDup.
Qed.

Lemma groupNames_elem (resources : list string) (p : string) :
  p ∈ groupNames resources
  ↔ p ≠ "__proto__"
    ∧ ∃ resc, resc ∈ resources ∧ notSlashFirst resc = true
              ∧ splitHead resc = p.
Proof.
  unfold groupNames. rewrite addNames_elem, elem_of_nil.
  rewrite list_elem_of_fmap.
  split.
  - intros [[]|[(resc & -> & Hin) Hne]]. split; [done|].
    apply list_elem_of_In, List.filter_In in Hin as [Hin Hns].
    exists resc. by rewrite list_elem_of_In.
  - intros (Hne & resc & Hin & Hns & <-). right. split; [|done].
    exists resc. split; [done|].
    apply list_elem_of_In, List.filter_In. by rewrite <- list_elem_of_In.
Qed.

Lemma groupNames_NoDup (resources : list string) :
  NoDup (groupNames resources).
Proof. apply addNames_NoDup. constructor. Qed.

(** ** The order of property names *)

Lemma insertIndex_perm (x : N * string) (l : list (N * string)) :
  insertIndex x l ≡ₚ x :: l.
Proof.
  induction l as [|y l IH]; simpl; [done|].
  destruct (fst x <=? fst y)%N; [done|].
  rewrite IH. apply Permutation_swap.
Qed.

Lemma sortIndices_perm (l : list (N * string)) : sortIndices l ≡ₚ l.
Proof.
  induction l as [|x l IH]; simpl; [done|].
  by rewrite insertIndex_perm, IH.
Qed.

Lemma indexed_names (names : list string) :
  map snd (omap (fun k => option_map (fun i => (i, k)) (arrayIndex k)) names)
  = List.filter (fun k => truthy (arrayIndex k)) names.
Proof.
  induction names as [|k names IH]; simpl; [done|].
  destruct (arrayIndex k); simpl; [f_equal|]; exact IH.
Qed.

Lemma filter_split_perm {A} (f : A → bool) (l : list A) :
  List.filter f l ++ List.filter (fun x => negb (f x)) l ≡ₚ l.
Proof.
  induction l as [|x l IH]; simpl; [done|].
  destruct (f x); simpl.
  - by rewrite IH.
  - rewrite <- Permutation_middle. by rewrite IH.
Qed.

(** JavaScript lists every name once: the order is a rearrangement. *)
Lemma propertyOrder_perm (names : list string) : propertyOrder names ≡ₚ names.
Proof.
  unfold propertyOrder.
  etrans; [|apply (filter_split_perm (fun k => truthy (arrayIndex k)))].
  apply Permutation_app; [|done].
  rewrite <- indexed_names. apply Permutation_map, sortIndices_perm.
Qed.

(** Names that are no array indices keep the order of their creation. *)
Lemma propertyOrder_plain (names : list string) :
  Forall (fun k => arrayIndex k = None) names → propertyOrder names = names.
Proof.
  unfold propertyOrder. intros Hplain.
  assert (omap (fun k => option_map (fun i => (i, k)) (arrayIndex k)) names
          = []) as ->.
  { induction Hplain as [|k names Hk _ IH]; simpl; [done|].
    rewrite Hk. simpl. exact IH. }
  simpl. induction Hplain as [|k names Hk _ IH]; simpl; [done|].
  rewrite Hk. simpl. by f_equal.
Qed.

(** ** Merging routes *)

Ltac mon :=
  repeat (progress (unfold bind, ret, done, throw, aclQuery, aclUpdate,
                    regFindOne, regSave, next, json, send, emit, getHeap,
                    onHeap, run, async_auto; simpl)).

Lemma mergeRoutes_elem (dataRoutes new : list string) (r : string) :
  r ∈ mergeRoutes dataRoutes new ↔ r ∈ dataRoutes ∨ r ∈ new.
Proof.
  unfold mergeRoutes. revert dataRoutes.
  induction new as [|x new IH]; intros dataRoutes; simpl.
  - rewrite elem_of_nil. naive_solver.
  - rewrite IH, elem_of_cons. clear IH.
    destruct (indexOf x dataRoutes =? -1)%Z eqn:E.
    + rewrite elem_of_app, list_elem_of_singleton. naive_solver.
    + split; [naive_solver|]. intros [?|[->|?]]; [by left| |by right].
      left. apply indexOf_elem. by apply Z.eqb_neq.
Qed.

Lemma mergeRoutes_present (dataRoutes new : list string) :
  (∀ r, r ∈ new → r ∈ dataRoutes) → mergeRoutes dataRoutes new = dataRoutes.
Proof.
  unfold mergeRoutes. induction new as [|x new IH]; intros Hall; simpl; [done|].
  destruct (indexOf x dataRoutes =? -1)%Z eqn:E.
  - apply Z.eqb_eq in E. exfalso. eapply indexOf_elem; [|done].
    apply Hall. by left.
  - apply IH. intros r Hr. apply Hall. by right.
Qed.

Lemma mergeRoutes_added (dataRoutes new : list string) :
  ∃ added,
    mergeRoutes dataRoutes new = dataRoutes ++ added
    ∧ NoDup added
    ∧ (∀ r, r ∈ added ↔ r ∈ new ∧ r ∉ dataRoutes).
Proof.
  unfold mergeRoutes. revert dataRoutes.
  induction new as [|x new IH]; intros dataRoutes; simpl.
  - exists []. rewrite app_nil_r. split; [done|]. split; [constructor|].
    intros r. rewrite !elem_of_nil. naive_solver.
  - destruct (indexOf x dataRoutes =? -1)%Z eqn:E.
    + apply Z.eqb_eq in E.
      assert (x ∉ dataRoutes) as Hx by (by intros ?%indexOf_elem).
      destruct (IH (dataRoutes ++ [x])) as (added & -> & Hnd & Hin).
      exists (x :: added). rewrite <- app_assoc. split; [done|]. split.
      * constructor; [|done]. intros [_ Hn]%Hin. apply Hn.
        apply elem_of_app. right. by left.
      * intros r. rewrite !elem_of_cons, Hin, elem_of_app,
          list_elem_of_singleton.
        destruct (decide (r = x)) as [->|Hne]; naive_solver.
    + apply Z.eqb_neq in E. apply indexOf_elem in E.
      destruct (IH dataRoutes) as (added & -> & Hnd & Hin).
      exists added. split; [done|]. split; [done|].
      intros r. rewrite Hin, elem_of_cons.
      destruct (decide (r = x)) as [->|Hne]; naive_solver.
Qed.

(** X1: the inner loop of [updateAppRoutes] keeps the routes of the
    document where they are and appends, after them, each requested route
    that the document lacks, once; so a document without duplicates stays
    without duplicates. *)
Theorem mergeRoutes_appends_missing (dataRoutes new : list string) :
  ∃ added,
    mergeRoutes dataRoutes new = dataRoutes ++ added
    ∧ NoDup added
    ∧ (∀ r, r ∈ added ↔ r ∈ new ∧ r ∉ dataRoutes)
    ∧ (NoDup dataRoutes → NoDup (mergeRoutes dataRoutes new)).
Proof.
  destruct (mergeRoutes_added dataRoutes new) as (added & E & Hnd & Hin).
  exists added. repeat (split; [done|]).
  intros Hd. rewrite E. apply NoDup_app. split; [done|]. split; [|done].
  intros r Hr [_ Hn]%Hin. done.
Qed.

(** X2: merging the same routes a second time changes nothing, and merging
    routes that the document has already changes nothing. *)
Theorem mergeRoutes_idempotent (dataRoutes new : list string) :
  mergeRoutes (mergeRoutes dataRoutes new) new = mergeRoutes dataRoutes new
  ∧ mergeRoutes dataRoutes dataRoutes = dataRoutes
  ∧ mergeRoutes dataRoutes [] = dataRoutes.
Proof.
  split; [|split; [|done]].
  - apply mergeRoutes_present. intros r Hr. apply mergeRoutes_elem. by right.
  - by apply mergeRoutes_present.
Qed.

(** ** [updateAppRoutes] in closed form *)

Lemma aclCalls_lookups (ps : list string) : aclCalls (map EFindOne ps) = [].
Proof. by induction ps. Qed.

Lemma aclCalls_saves (l : list (string * list string)) :
  aclCalls (map saveEvent l) = [].
Proof. by induction l. Qed.

Lemma responses_lookups (ps : list string) : responses (map EFindOne ps) = [].
Proof. by induction ps. Qed.

Lemma responses_saves (l : list (string * list string)) :
  responses (map saveEvent l) = [].
Proof. by induction l. Qed.

Lemma registryCalls_lookups (ps : list string) :
  registryCalls (map EFindOne ps) = map EFindOne ps.
Proof. induction ps as [|p ps IH]; simpl; by rewrite ?IH. Qed.

Lemma registryCalls_saves (l : list (string * list string)) :
  registryCalls (map saveEvent l) = map saveEvent l.
Proof. induction l as [|x l IH]; simpl; by rewrite ?IH. Qed.

Lemma lookups_lookups (ps : list string) : lookups (map EFindOne ps) = ps.
Proof. induction ps as [|p ps IH]; simpl; by rewrite ?IH. Qed.

Lemma lookups_saves (l : list (string * list string)) :
  lookups (map saveEvent l) = [].
Proof. by induction l. Qed.

Lemma saves_lookups (ps : list string) : saves (map EFindOne ps) = [].
Proof. by induction ps. Qed.

Lemma saves_saves (l : list (string * list string)) :
  saves (map saveEvent l) = l.
Proof. induction l as [|[p r] l IH]; simpl; by rewrite ?IH. Qed.

Section UpdateAppRoutes.

Context {St Reg : Type} `{!AclBackend St} `{!Registry Reg}.

Implicit Types (s : St) (d : Reg) (w : World St Reg) (req : Req).

(** The lookups: one event for each prefix, in order, and what each finds
    in the registry as it is. *)
Lemma findEach_spec (prefixes : list string) w :
  findEach prefixes w
  = (map (fun p => (p, findOne p (db w))) prefixes,
     mkWorldAt (acl w) (db w) (heap w) (trace w ++ map EFindOne prefixes)).
Proof.
  revert w. induction prefixes as [|p ps IH]; intros w; simpl.
  - unfold ret. rewrite app_nil_r. by destruct w.
  - mon. rewrite IH. simpl. by rewrite <- app_assoc.
Qed.

(** The callbacks: a save for each document found, in order. *)
Lemma forEach_answers (own : Groups) (found : list (string * FindResult)) w :
  forEachM (answerFound own) found w
  = (tt, mkWorldAt (acl w)
           (fold_left saveOne (omap (savedRoutes (heap w) own) found) (db w))
           (heap w)
           (trace w ++ map saveEvent (omap (savedRoutes (heap w) own) found))).
Proof.
  revert w. induction found as [|[p f] found IH]; intros w; simpl.
  - unfold ret. rewrite app_nil_r. by destruct w.
  - unfold bind at 1. unfold answerFound at 1, savedRoutes at 1 3. simpl.
    destruct f as [e| |routes]; mon; rewrite IH; simpl;
      by rewrite <- ?app_assoc.
Qed.

Lemma updateAppRoutes_spec req w :
  let grouped := groupRoutes (requestResources (body req)) (heap w) in
  let prefixes := ownPropertyNames (fst grouped) in
  let saved :=
    omap (savedRoutes (snd grouped) (fst grouped))
         (map (fun p => (p, findOne p (db w))) prefixes) in
  updateAppRoutes req w
  = (tt, mkWorldAt (acl w) (fold_left saveOne saved (db w)) (snd grouped)
           (trace w ++ map EFindOne prefixes ++ map saveEvent saved)).
Proof.
  unfold updateAppRoutes. unfold bind at 1. unfold onHeap.
  destruct (groupRoutes (requestResources (body req)) (heap w))
    as [own g] eqn:Hg. simpl.
  unfold bind. rewrite findEach_spec, forEach_answers. simpl.
  by rewrite <- app_assoc.
Qed.

(** [updateAppRoutes] never touches the store, calls nothing on it and
    sends no response. *)
Lemma updateAppRoutes_frame req w :
  ∃ d' g' t',
    updateAppRoutes req w = (tt, mkWorldAt (acl w) d' g' (trace w ++ t'))
    ∧ aclCalls t' = [] ∧ responses t' = [].
Proof.
  eexists _, _, _. split; [apply updateAppRoutes_spec|].
  rewrite aclCalls_app, responses_app.
  by rewrite aclCalls_lookups, aclCalls_saves, responses_lookups,
    responses_saves.
Qed.

(** What it does depends on the registry and the heap alone: not on the
    store, not on what has happened before. *)
Lemma updateAppRoutes_registry_only req w s0 :
  let w0 := snd (updateAppRoutes req (mkWorldAt s0 (db w) (heap w) [])) in
  updateAppRoutes req w
  = (tt, mkWorldAt (acl w) (db w0) (heap w0) (trace w ++ trace w0)).
Proof. cbv zeta. by rewrite !updateAppRoutes_spec. Qed.

Lemma updateAppRoutes_trace req w :
  trace w = [] →
  registryCalls (trace (snd (updateAppRoutes req w)))
  = trace (snd (updateAppRoutes req w)).
Proof.
  intros Ht. rewrite updateAppRoutes_spec. simpl. rewrite Ht. simpl.
  by rewrite registryCalls_app, registryCalls_lookups, registryCalls_saves.
Qed.

End UpdateAppRoutes.

Lemma concat_resources (allows : list Allow) (acc : list string) :
  fold_left (fun resources obj => resources ++ a_resources obj) allows acc
  = acc ++ concat (map a_resources allows).
Proof.
  revert acc. induction allows as [|a l IH]; intros acc; simpl.
  - by rewrite app_nil_r.
  - by rewrite IH, app_assoc.
Qed.

Lemma filter_concat {A} (f : A → bool) (ls : list (list A)) :
  List.filter f (concat ls) = concat (map (List.filter f) ls).
Proof.
  induction ls as [|l ls IH]; simpl; [done|].
  by rewrite List.filter_app, IH.
Qed.

Lemma requestResources_without (b : Body) :
  requestResources (withoutSlashFirst b)
  = List.filter notSlashFirst (requestResources b).
Proof.
  unfold requestResources, withoutSlashFirst. simpl.
  destruct (b_allows b) as [allows|]; simpl.
  - rewrite !concat_resources. simpl. rewrite filter_concat.
    f_equal. rewrite !map_map. done.
  - destruct (b_resources b); done.
Qed.

(** ** The handlers *)

Ltac frame :=
  match goal with
  | |- context [updateAppRoutes ?r ?w] =>
      let d' := fresh "d'" in
      let g' := fresh "g'" in
      let t' := fresh "t'" in
      let E := fresh "E" in
      let Hc := fresh "Hc" in
      let Hr := fresh "Hr" in
      destruct (updateAppRoutes_frame r w) as (d' & g' & t' & E & Hc & Hr);
      rewrite E; clear E; simpl
  end.

Ltac project :=
  repeat (rewrite ?responses_app, ?aclCalls_app; simpl);
  repeat match goal with
         | H : aclCalls _ = [] |- _ => rewrite H
         | H : responses _ = [] |- _ => rewrite H
         end; simpl.

Ltac branch :=
  match goal with
  | |- context [match ?x with _ => _ end] =>
      lazymatch x with
      | context [match _ with _ => _ end] => fail
      | context [updateAppRoutes] => fail
      | _ => destruct x eqn:?
      end
  end.

Ltac crunch := repeat (mon; first [frame | branch]); mon; project.

Section Independence.

Context {St Reg1 Reg2 : Type} `{!AclBackend St}.
Context (R1 : Registry Reg1) (R2 : Registry Reg2).

(** C6: the two handlers that notify the route registry ([POST /roles] and
    [POST /roles/:roleName/resources]) leave the same store, make the same
    store calls and send the same responses whatever the registry is and
    does: lookups may fail or succeed, saves may take effect or not. *)
Theorem registry_never_changes_outcome (req : Req) (s : St)
    (d1 : Reg1) (d2 : Reg2) :
  outcome (run (post_roles (Registry0 := R1) req) s d1)
  = outcome (run (post_roles (Registry0 := R2) req) s d2)
  ∧ outcome (run (post_resources (Registry0 := R1) req) s d1)
    = outcome (run (post_resources (Registry0 := R2) req) s d2).
Proof.
  unfold outcome. split.
  - unfold post_roles. crunch; congruence.
  - unfold post_resources. crunch; congruence.
Qed.

End Independence.



Section RouterFacts.

Context {St Reg : Type} `{!AclBackend St} `{!Registry Reg}.

Implicit Types (s : St) (d : Reg) (w : World St Reg) (req : Req).

(** C3: a DELETE of the role named "admin" answers 403 and nothing else
    happens: whatever the rest of the request, the store and the registry,
    the only event is [next(err)] with status 403, so no call was made on
    the store (not even [existsRole]) and the store, hence its roles, is
    the one the request found. *)
Theorem delete_admin_is_refused
    (p0 pn : option string) (b : Body) s d :
  let w := run (delete_role (mkReq (mkParams (Some "admin") p0 pn) b)) s d in
  trace w = [ENext (mkErr "The role admin is indestructible" (Some 403))]
  ∧ aclCalls (trace w) = []
  ∧ acl w = s
  ∧ listRoles (acl w) = listRoles s.
Proof. done. Qed.

(** C9: in the [get] task of GET /roles/:roleName, which runs once
    [existsRole] has succeeded, an error of [whatResources] makes the task
    invoke its callback twice: first with the error, then with no error
    and an undefined result. The handler reaches the task in that case:
    its calls on the store are [existsRole] and then [whatResources]. *)
Theorem get_task_calls_back_twice (roleName : string) (e : Err) s d :
  existsRole roleName s = None →
  whatResources roleName s = inl e →
  (∀ t, fst (get_task roleName (mkWorld s d t))
        = [(Some e, VUndefined); (None, VUndefined)])
  ∧ (∀ p0 pn b,
       aclCalls (trace (run (get_role
                  (mkReq (mkParams (Some roleName) p0 pn) b)) s d))
       = [CExistsRole roleName; CWhatResources roleName]).
Proof.
  intros Hex Hwhat. split.
  - intros t. unfold get_task. mon. by rewrite Hwhat.
  - intros p0 pn b.
    assert (orEmpty (Some roleName) = roleName) as Hor
      by (by destruct roleName).
    unfold get_role. cbn [params p_roleName]. rewrite Hor.
    mon. rewrite Hex. unfold get_task. mon. by rewrite Hwhat.
Qed.

(** C8: in POST /roles/:roleName/resources with an [allows] body the grant
    goes to the role of the URL: the only mutation the handler ever calls
    is [allow] on the body with [roles] set to [roleName], and two requests
    that differ in the body's [roles] only run identically (same store,
    same registry, same trace). *)
Theorem body_roles_is_overwritten
    (p : Params) (r1 r2 : option string) (allows : list Allow)
    (res perms : option (list string)) s d :
  let req1 := mkReq p (mkBody r1 (Some allows) res perms) in
  let req2 := mkReq p (mkBody r2 (Some allows) res perms) in
  run (post_resources req1) s d = run (post_resources req2) s d
  ∧ (∀ c, c ∈ aclCalls (trace (run (post_resources req1) s d)) →
          isMutation c = true →
          c = CAllowEx [mkBody (Some (orEmpty (p_roleName p)))
                               (Some allows) res perms]).
Proof.
  split; [reflexivity|].
  intros c. unfold post_resources, setRoles. crunch.
  all: rewrite ?elem_of_cons, ?elem_of_nil; intros Hin Hm;
       repeat destruct Hin as [->|Hin]; try done.
Qed.


End RouterFacts.

Section Pipeline.

Context {St Reg : Type} `{!AclBackend St} `{!Registry Reg}.

Implicit Types (s : St) (d : Reg) (w : World St Reg) (req : Req).

Ltac a_mutation := eexists _, _; split; [reflexivity|done].

(** Each handler is its pipeline of checks, run fail-fast: when a check
    fails the trace is the queries up to that check and what the failure
    shows, [next] of its error or the exception, and the store is
    untouched; when none fails a mutation follows the queries of the
    checks. *)
Lemma handle_runs_checks (ep : Mutating) req s d :
  let w := run (handle ep req) s d in
  match firstFailure (checks ep req s) with
  | Some (calls, f) =>
      trace w = map EAcl calls ++ [failureEvent f] ∧ acl w = s
  | None =>
      ∃ mutation rest,
        aclCalls (trace w)
        = concat (map consults (checks ep req s)) ++ mutation :: rest
        ∧ isMutation mutation = true
  end.
Proof.
  destruct ep; unfold handle, checks, onResult, thenOn, refuseIf, option_map.
  - unfold post_roles. crunch; simplify_eq; try done; a_mutation.
  - unfold delete_role. crunch; simplify_eq; try done; a_mutation.
  - unfold post_resources. crunch; simplify_eq; try done; a_mutation.
  - unfold post_permissions. crunch; simplify_eq; try done; a_mutation.
  - unfold delete_permission. crunch; simplify_eq; try done; a_mutation.
  - unfold delete_resource. crunch; simplify_eq; try done; a_mutation.
Qed.



End Pipeline.

Section OnRefStore.

Import RefStore.

Context {Reg : Type} `{!Registry Reg}.

Implicit Types (s : gmap string ResMap) (m : ResMap) (d : Reg) (req : Req).

(** C7: DELETE /roles/:roleName/resources/* on the reference store, for a
    resource that the role has: the handler calls [removeAllow] with the
    whole permission list that [whatResources] gave for the resource as
    the permissions to remove, the store it leaves is the old one with the
    resource taken out of the role, and the answer is the re-read
    [whatResources] of the role, in which the resource is no more. *)
Theorem delete_resource_removes_previous_permissions
    (role res : string) (pn : option string) (b : Body)
    s d m (perms : list string) :
  s !! role = Some m →
  m !! res = Some perms →
  let w := run (delete_resource (mkReq (mkParams (Some role) (Some res) pn) b))
               s d in
  aclCalls (trace w)
  = [CExistsRole role; CWhatResources role;
     CRemoveAllow role res (Arr perms); CWhatResources role]
  ∧ acl w = <[role := delete res m]> s
  ∧ responses (trace w) = [EJson (VObject (delete res m))]
  ∧ delete res m !! res = None.
Proof.
  intros Hrole Hres w. subst w.
  assert (orEmpty (Some role) = role) as Hr by (by destruct role).
  assert (orEmpty (Some res) = res) as Hs by (by destruct res).
  assert (List.filter (fun p => (indexOf p perms =? -1)%Z) perms = [])
    as Hnone by (by apply filter_absent_self).
  unfold delete_resource. cbn [params p_roleName p_0]. rewrite Hr, Hs.
  unfold member.
  repeat first [rewrite Hrole | rewrite Hres | progress mon].
  unfold revoke. simpl.
  repeat first [rewrite Hrole | rewrite Hres | rewrite Hnone
               | rewrite lookup_insert_eq | progress mon].
  by rewrite lookup_delete_eq.
Qed.

End OnRefStore.

Section LastPermission.

Context {St Reg : Type} `{!AclBackend St} `{!Registry Reg}.

Implicit Types (s : St) (d : Reg) (req : Req).

(** C2, as the handler has it: a DELETE of a permission of a resource that
    has fewer than two permissions, that is the removal of its last
    permission, is answered with a 400 error, after [existsRole] and
    [whatResources] and nothing else, and the store is unchanged. *)
Theorem last_permission_is_protected req s d
    (result : ResMap) (perms : list string) :
  let roleName := orEmpty (p_roleName (params req)) in
  let resource := orEmpty (p_0 (params req)) in
  let permission := orEmpty (p_permissionName (params req)) in
  existsRole roleName s = None →
  whatResources roleName s = inr result →
  result !! resource = Some perms →
  (length perms < 2)%nat →
  let w := run (delete_permission req) s d in
  trace w
  = [EAcl (CExistsRole roleName); EAcl (CWhatResources roleName);
     ENext (status400 ("The permission " ++ permission
                         ++ " can't be remove because is the last"))]
  ∧ acl w = s.
Proof.
  intros roleName resource permission Hex Hwhat Hres Hlen w. subst w.
  unfold delete_permission. fold roleName resource permission.
  apply Nat.ltb_lt in Hlen.
  mon. rewrite Hex. mon. rewrite Hwhat. mon. unfold member. rewrite Hres.
  unfold shorterThan, lengthOf. rewrite Hlen. mon. done.
Qed.

(** The handler of DELETE /roles/:roleName/resources/*, on any store: the
    permissions it asks [removeAllow] to remove are the list that
    [whatResources] gave for the resource. *)
Lemma delete_resource_passes_previous_list req s d
    (result : ResMap) (perms : list string) :
  let roleName := orEmpty (p_roleName (params req)) in
  let resource := orEmpty (p_0 (params req)) in
  existsRole roleName s = None →
  whatResources roleName s = inr result →
  result !! resource = Some perms →
  let w := run (delete_resource req) s d in
  CRemoveAllow roleName resource (Arr perms) ∈ aclCalls (trace w)
  ∧ acl w = snd (removeAllow roleName resource (Arr perms) s).
Proof.
  intros roleName resource Hex Hwhat Hres w. subst w.
  unfold delete_resource. fold roleName resource.
  mon. rewrite Hex. mon. rewrite Hwhat. mon. unfold member. rewrite Hres. mon.
  destruct (removeAllow roleName resource (Arr perms) s) as [[e|] s'];
    mon; [|destruct (whatResources roleName s'); mon];
    (split; [|done]); rewrite !elem_of_cons; tauto.
Qed.

End LastPermission.

(** ** What a plain object inherits *)

Lemma assoc_None {A} (k : string) (l : list (string * A)) :
  assoc k l = None ↔ k ∉ map fst l.
Proof.
  rewrite assoc_keys. apply eq_None_not_Some.
Qed.

(** With [Object.prototype] untouched, a name that is none of
    [inheritedNames] reads as [undefined], and the others as a function
    or as [Object.prototype]. *)
Lemma inherited_untouched (name : string) :
  ((name ∉ inheritedNames) ∧ inherited untouched name = VUndefined)
  ∨ (name ∈ inheritedNames ∧ truthyValue (inherited untouched name) = true
     ∧ ∀ l, inherited untouched name ≠ VArray l).
Proof.
  unfold inherited, inheritedNames.
  destruct (String.eqb name "__proto__") eqn:E.
  - apply String.eqb_eq in E. subst. right. split; [by left|done].
  - apply String.eqb_neq in E. unfold arityOf.
    destruct (assoc name objectPrototype) as [n|] eqn:Ha.
    + right. split; [|done]. right. apply assoc_keys. by eexists.
    + left. apply assoc_None in Ha. split.
      * by intros [?|?]%elem_of_cons.
      * simpl. by destruct (String.eqb name "routes").
Qed.

Lemma member_own (g : Heap) (result : ResMap) (resource : string)
    (perms : list string) :
  result !! resource = Some perms → member g result resource = VArray perms.
Proof. unfold member. by intros ->. Qed.

Lemma member_absent (result : ResMap) (resource : string) :
  result !! resource = None →
  resource ∉ inheritedNames →
  member untouched result resource = VUndefined.
Proof.
  unfold member. intros -> Hn.
  by destruct (inherited_untouched resource) as [[_ ->]|[? _]].
Qed.

Lemma assoc_elem {A} (k : string) (a : A) (l : list (string * A)) :
  assoc k l = Some a → (k, a) ∈ l.
Proof.
  induction l as [|[k' a'] l IH]; simpl; [done|].
  destruct (String.eqb k' k) eqn:E.
  - apply String.eqb_eq in E. intros [= ->]. subst. by left.
  - intros H. right. by apply IH.
Qed.

(** The members on which [DELETE .../permissions/:p] goes past its length
    test and calls [indexOf], which they do not have. *)
Lemma member_raises (result : ResMap) (resource : string) :
  (truthyValue (member untouched result resource) = true
   ∧ shorterThan 2 (member untouched result resource) = false
   ∧ ∀ l, member untouched result resource ≠ VArray l)
  ↔ result !! resource = None
    ∧ resource ∈ ["__proto__"; "__defineGetter__"; "__defineSetter__"].
Proof.
  unfold member. destruct (result !! resource) as [perms|] eqn:Hown.
  - split; [|by intros [? _]]. intros (_ & _ & Hn). by destruct (Hn perms).
  - unfold inherited, shorterThan, lengthOf.
    destruct (String.eqb resource "__proto__") eqn:E.
    + apply String.eqb_eq in E. subst. split; [|done].
      intros _. split; [done|]. by left.
    + apply String.eqb_neq in E. unfold arityOf.
      destruct (assoc resource objectPrototype) as [n|] eqn:Ha.
      * rewrite Ha. apply assoc_elem in Ha. unfold objectPrototype in Ha.
        rewrite !elem_of_cons, elem_of_nil in Ha.
        repeat destruct Ha as [Ha|Ha]; try done; simplify_eq.
        all: split; [intros (_ & Hlt & _)|intros [_ Hin]].
        all: try (by vm_compute in Hlt).
        all: try (split; [done|];
                  repeat first [apply list_elem_of_here
                               |apply list_elem_of_further]).
        all: try (split; [done|split; [done|done]]).
        all: rewrite !elem_of_cons, elem_of_nil in Hin; naive_solver.
      * split; [|intros [_ Hin]].
        { intros (Ht & _). by destruct (String.eqb resource "routes"). }
        rewrite !elem_of_cons, elem_of_nil in Hin.
        destruct Hin as [->|[->|[->|[]]]]; done.
Qed.

(** ** The mutating handlers once the checks have passed *)

Section AfterChecks.

Context {St Reg : Type} `{!AclBackend St} `{!Registry Reg}.

Implicit Types (s : St) (d : Reg) (w : World St Reg) (req : Req).

Lemma handle_after_checks (ep : Mutating) req s d :
  firstFailure (checks ep req s) = None →
  let w := run (handle ep req) s d in
  let m := mutationCall ep req s in
  acl w = snd (perform m s)
  ∧ aclCalls (trace w)
    = concat (map consults (checks ep req s))
      ++ m :: match fst (perform m s) with
              | Some _ => []
              | None => [requery ep req]
              end
  ∧ responses (trace w)
    = [match fst (perform m s) with
       | Some e => ENext e
       | None => reread ep req (snd (perform m s))
       end].
Proof.
  destruct ep;
    unfold handle, checks, onResult, thenOn, refuseIf, option_map,
      mutationCall, perform, reread, requery.
  - unfold post_roles. crunch; simplify_eq; done.
  - unfold delete_role. crunch; simplify_eq; done.
  - unfold post_resources. crunch; simplify_eq; done.
  - unfold post_permissions. crunch; simplify_eq; done.
  - unfold delete_permission. crunch; simplify_eq; done.
  - unfold delete_resource. crunch; simplify_eq; done.
Qed.





Lemma responses_map_EAcl (calls : list AclCall) :
  responses (map EAcl calls) = [].
Proof. by induction calls. Qed.

(** The one check that can raise is the last of DELETE .../permissions/:p,
    and it does on the three members of [Object.prototype] that are no
    arrays and pass its length test. *)
Lemma raised_iff (ep : Mutating) req s :
  (∃ calls, firstFailure (checks ep req s) = Some (calls, Raised))
  ↔ ep = DeletePermission
    ∧ existsRole (orEmpty (p_roleName (params req))) s = None
    ∧ ∃ result,
        whatResources (orEmpty (p_roleName (params req))) s = inr result
        ∧ result !! orEmpty (p_0 (params req)) = None
        ∧ orEmpty (p_0 (params req))
          ∈ ["__proto__"; "__defineGetter__"; "__defineSetter__"].
Proof.
  split.
  - intros [calls Hf].
    destruct ep; unfold checks, onResult, thenOn, refuseIf, option_map in Hf;
      simpl in Hf;
      repeat match type of Hf with
             | context [match ?x with _ => _ end] =>
                 lazymatch x with
                 | context [match _ with _ => _ end] => fail
                 | _ => destruct x eqn:?
                 end
             end; simplify_eq.
    all: split; [done|]; split; [done|]; eexists; split; [done|].
    all: apply member_raises;
      match goal with
      | H : member _ _ _ = _ |- _ => rewrite H
      end; done.
  - intros (-> & Hex & result & Hwhat & Hraise).
    apply member_raises in Hraise as (Ht & Hlen & Hn).
    unfold checks, onResult, thenOn, refuseIf, option_map. simpl.
    rewrite Hex, Hwhat. simpl. rewrite Ht, Hlen. simpl.
    destruct (member untouched result (orEmpty (p_0 (params req)))) eqn:Hm;
      try by eexists.
    by destruct (Hn l).
Qed.



(** X10: when every check has passed, the answer is the error of the
    mutation if it reports one, and then the store is not read again;
    otherwise the store is read once more, after the mutation, and the
    answer is what that read gives: its error, or its result. *)
Theorem answer_after_checks (ep : Mutating) req s d :
  firstFailure (checks ep req s) = None →
  let w := run (handle ep req) s d in
  let m := mutationCall ep req s in
  match fst (perform m s) with
  | Some e =>
      responses (trace w) = [ENext e]
      ∧ aclCalls (trace w) = concat (map consults (checks ep req s)) ++ [m]
  | None =>
      responses (trace w) = [reread ep req (snd (perform m s))]
      ∧ aclCalls (trace w)
        = concat (map consults (checks ep req s)) ++ [m; requery ep req]
  end.
Proof.
  intros Hpass w m.
  destruct (handle_after_checks ep req s d Hpass) as (_ & Hcalls & Hresp).
  fold w m in Hcalls, Hresp.
  by destruct (fst (perform m s)).
Qed.

(** X11: a mutating request, its body as documented ([resources] and
    [permissions] arrays of strings), is answered exactly once, whatever
    the store answers to the handler's calls, but for one case in which it
    is not answered at all: a DELETE of a permission of a resource that
    the role does not have and whose name is [__proto__],
    [__defineGetter__] or [__defineSetter__]. What every object inherits
    under these names passes the existence and the length test, has no
    [indexOf], and the call of it raises a [TypeError] after the two
    queries; the store is left as it was. *)
Theorem answered_exactly_once (ep : Mutating) req s d :
  let w := run (handle ep req) s d in
  let roleName := orEmpty (p_roleName (params req)) in
  let resource := orEmpty (p_0 (params req)) in
  let raises :=
    ep = DeletePermission
    ∧ existsRole roleName s = None
    ∧ ∃ result,
        whatResources roleName s = inr result
        ∧ result !! resource = None
        ∧ resource ∈ ["__proto__"; "__defineGetter__"; "__defineSetter__"] in
  (raises →
     trace w = [EAcl (CExistsRole roleName); EAcl (CWhatResources roleName);
                EThrow]
     ∧ responses (trace w) = []
     ∧ acl w = s)
  ∧ (¬ raises → length (responses (trace w)) = 1).
Proof.
  intros w roleName resource raises. subst w.
  pose proof (handle_runs_checks ep req s d) as Hfail.
  pose proof (handle_after_checks ep req s d) as Hpass.
  pose proof (raised_iff ep req s) as Hraised.
  cbv zeta in Hfail, Hpass. fold roleName resource raises in Hraised.
  split.
  - intros Hr. pose proof Hr as (-> & Hex & result & Hwhat & _).
    apply Hraised in Hr as [calls Hf]. rewrite Hf in Hfail.
    destruct Hfail as [Ht ->]. rewrite Ht.
    unfold checks, onResult, thenOn, refuseIf, option_map in Hf.
    simpl in Hf. fold roleName resource in Hf. rewrite Hex, Hwhat in Hf.
    simpl in Hf.
    repeat match type of Hf with
           | context [match ?x with _ => _ end] =>
               lazymatch x with
               | context [match _ with _ => _ end] => fail
               | _ => destruct x eqn:?
               end
           end; simplify_eq; done.
  - intros Hn.
    destruct (firstFailure (checks ep req s)) as [[calls [e|]]|] eqn:E.
    + destruct Hfail as [-> _].
      by rewrite responses_app, responses_map_EAcl.
    + destruct Hn. apply Hraised. by exists calls.
    + by destruct (Hpass eq_refl) as (_ & _ & ->).
Qed.

End AfterChecks.

Ltac from_store :=
  first
    [ left; eassumption
    | right; left; eexists; eassumption
    | right; right; left; eexists; eassumption
    | right; right; right;
      match goal with
      | H : allow ?r ?x ?p _ = (Some _, _) |- _ =>
          exists (CAllow r x p); exact (f_equal fst H)
      | H : allowEx ?o _ = (Some _, _) |- _ =>
          exists (CAllowEx o); exact (f_equal fst H)
      | H : removeAllow ?r ?x ?p _ = (Some _, _) |- _ =>
          exists (CRemoveAllow r x p); exact (f_equal fst H)
      | H : removeRole ?r _ = (Some _, _) |- _ =>
          exists (CRemoveRole r); exact (f_equal fst H)
      end ].

Ltac origin :=
  rewrite ?elem_of_cons, ?elem_of_nil;
  let Hin := fresh "Hin" in
  intros Hin;
  repeat destruct Hin as [Hin|Hin]; try done; simplify_eq;
  first [ by (right; right; left)
        | left; from_store
        | right; left; simpl; from_store
        | right; right; right;
          split; [done|split; [done|by apply String.eqb_eq]] ].

Section Origin.

Context {St Reg : Type} `{!AclBackend St} `{!Registry Reg}.

Implicit Types (s : St) (d : Reg) (w : World St Reg) (req : Req).

(** X12: an error with which a mutating request is answered is an error
    that the store reported, on the state the request found or on the
    state it left, or an error of the router with status 400, or the error
    with status 403 of the DELETE of the role named "admin": the router
    makes up no other status. *)
Theorem error_statuses (ep : Mutating) req s d (e : Err) :
  ENext e ∈ responses (trace (run (handle ep req) s d)) →
  reportedOn s e
  ∨ reportedOn (acl (run (handle ep req) s d)) e
  ∨ err_status e = Some 400
  ∨ (err_status e = Some 403
     ∧ ep = DeleteRole
     ∧ orEmpty (p_roleName (params req)) = "admin").
Proof.
  destruct ep; unfold handle.
  - unfold post_roles. crunch; origin.
  - unfold delete_role. crunch; origin.
  - unfold post_resources. crunch; origin.
  - unfold post_permissions. crunch; origin.
  - unfold delete_permission. crunch; origin.
  - unfold delete_resource. crunch; origin.
Qed.

End Origin.

(** ** The registry in a request *)

Ltac frame_db s0 :=
  match goal with
  | |- context [updateAppRoutes ?r ?w] =>
      lazymatch w with
      | mkWorld s0 _ [] => fail
      | _ => rewrite (updateAppRoutes_registry_only r w s0); simpl
      end
  end.

Ltac crunch_db s0 := repeat (mon; first [frame_db s0 | branch]); mon.

Section RegistryInRequest.

Context {St Reg : Type} `{!AclBackend St} `{!Registry Reg}.

Implicit Types (s : St) (d : Reg) (w : World St Reg) (req : Req).

Ltac notified_as_alone :=
  split; [done|];
  rewrite ?registryCalls_app, updateAppRoutes_trace by done; simpl;
  by rewrite ?app_nil_r.

Lemma handle_registry (ep : Mutating) req s d :
  let w := run (handle ep req) s d in
  let w0 := snd (updateAppRoutes (notified ep req) (mkWorld s d [])) in
  if notifies ep && negb (truthy (firstFailure (checks ep req s)))
  then db w = db w0 ∧ registryCalls (trace w) = trace w0
  else db w = d ∧ registryCalls (trace w) = [].
Proof.
  destruct ep;
    unfold handle, checks, onResult, thenOn, refuseIf, option_map, notified,
      notifies.
  - unfold post_roles. crunch_db s; simplify_eq; try done; notified_as_alone.
  - unfold delete_role. crunch_db s; simplify_eq; done.
  - unfold post_resources. crunch_db s; simplify_eq; try done;
      notified_as_alone.
  - unfold post_permissions. crunch_db s; simplify_eq; done.
  - unfold delete_permission. crunch_db s; simplify_eq; done.
  - unfold delete_resource. crunch_db s; simplify_eq; done.
Qed.

(** X13: the registry is called, and can change, in one case only: a
    POST /roles or a POST /roles/:roleName/resources whose checks have all
    passed. In every other case (a failed check, any other mutating
    request) no lookup and no save is made and the registry is unchanged;
    deleting a role, a resource or a permission never takes a route out of
    the registry. *)
Theorem registry_left_alone (ep : Mutating) req s d :
  notifies ep && negb (truthy (firstFailure (checks ep req s))) = false →
  let w := run (handle ep req) s d in
  db w = d ∧ registryCalls (trace w) = [].
Proof.
  intros Hno. pose proof (handle_registry ep req s d) as H.
  cbv zeta in H. by rewrite Hno in H.
Qed.

(** X14: when the checks of a POST /roles or of a
    POST /roles/:roleName/resources have passed, the registry is notified
    exactly as [updateAppRoutes] alone does on the registry the request
    found, whether [allow] then succeeds or reports an error and whatever
    the re-read of the store gives. *)
Theorem registry_notified_after_checks (ep : Mutating) req s d :
  notifies ep = true →
  firstFailure (checks ep req s) = None →
  let w := run (handle ep req) s d in
  let w0 := snd (updateAppRoutes (notified ep req) (mkWorld s d [])) in
  db w = db w0 ∧ registryCalls (trace w) = trace w0.
Proof.
  intros Hn Hpass. pose proof (handle_registry ep req s d) as H.
  cbv zeta in H. by rewrite Hn, Hpass in H.
Qed.

End RegistryInRequest.

(** ** The read-only requests *)

Ltac one_of :=
  rewrite ?elem_of_cons, ?elem_of_nil;
  let Hin := fresh "Hin" in
  intros Hin; repeat destruct Hin as [Hin|Hin]; try done; simplify_eq.

Section ReadFacts.

Context {St Reg : Type} `{!AclBackend St} `{!AclUsers St} `{!Registry Reg}.

Implicit Types (s : St) (d : Reg) (w : World St Reg) (req : Req).

(** X15: the four GET requests of the router only read: they leave the
    store and the registry as they found them, call no mutation of the
    store and make no call on the registry. *)
Theorem reads_change_nothing (r : Reading) req s d :
  let w := run (serve r req) s d in
  acl w = s
  ∧ db w = d
  ∧ List.filter isMutation (aclCalls (trace w)) = []
  ∧ registryCalls (trace w) = [].
Proof.
  destruct r; unfold serve.
  - unfold get_roles. crunch; done.
  - unfold get_role, get_task, get_callback. crunch; done.
  - unfold get_resource. crunch; done.
  - unfold get_users. crunch; done.
Qed.

(** X16: a GET on a role that [existsRole] does not find, be it for the
    role's resources, for one resource or for the role's users, is
    answered with the error of [existsRole] as it is, and the store is not
    asked anything else: neither [whatResources] nor [roleUsers] is
    called. *)
Theorem reads_stop_at_unknown_role (r : Reading) req s d (e : Err) :
  r ≠ GetRoles →
  existsRole (orEmpty (p_roleName (params req))) s = Some e →
  trace (run (serve r req) s d)
  = [EAcl (CExistsRole (orEmpty (p_roleName (params req)))); ENext e].
Proof.
  intros Hr Hex. destruct r; [done| | |]; unfold serve.
  - unfold get_role. mon. by rewrite Hex.
  - unfold get_resource. mon. by rewrite Hex.
  - unfold get_users. mon. by rewrite Hex.
Qed.

(** X17: the four handlers that address one resource of a role answer
    alike when the role has no such resource and the resource's name is
    none of those under which every object inherits a member (from an
    [Object.prototype] that is untouched, as [run] has it): GET and
    DELETE of the resource, POST of permissions (given a [permissions]
    field) and DELETE of a permission all answer with the same 400 error,
    which names the resource and the role, and none of them calls a
    mutation. *)
Theorem absent_resource_is_reported_alike req s d (result : ResMap) :
  let roleName := orEmpty (p_roleName (params req)) in
  let resource := orEmpty (p_0 (params req)) in
  existsRole roleName s = None →
  whatResources roleName s = inr result →
  result !! resource = None →
  resource ∉ inheritedNames →
  truthy (b_permissions (body req)) = true →
  let answer :=
    [EAcl (CExistsRole roleName); EAcl (CWhatResources roleName);
     ENext (status400 ("The resource " ++ resource ++ " in " ++ roleName
                                       ++ " doesn't exist."))] in
  trace (run (get_resource req) s d) = answer
  ∧ trace (run (delete_resource req) s d) = answer
  ∧ trace (run (post_permissions req) s d) = answer
  ∧ trace (run (delete_permission req) s d) = answer.
Proof.
  intros roleName resource Hex Hwhat Hres Hplain Hperm answer. subst answer.
  pose proof (member_absent result resource Hres Hplain) as Hm.
  unfold get_resource, delete_resource, post_permissions, delete_permission.
  fold roleName resource.
  repeat first [rewrite Hex | rewrite Hwhat | rewrite Hm | rewrite Hperm
               | progress mon].
  done.
Qed.

(** X18: a successful answer to a mutating request and a successful
    answer to the matching GET on the store that the request left carry
    the same body: GET /roles after a POST /roles or the DELETE of a role,
    GET /roles/:roleName after a change of the role's resources,
    GET /roles/:roleName/resources/* after a change of its permissions. *)
Theorem get_agrees_with_mutation
    (ep : Mutating) req s d (d2 : Reg) (e e' : Event) :
  let w := run (handle ep req) s d in
  e ∈ responses (trace w) →
  isSuccess e = true →
  e' ∈ responses (trace (run (serve (readOf ep) req) (acl w) d2)) →
  isSuccess e' = true →
  bodyOf e = bodyOf e'.
Proof.
  intros w. subst w.
  pose proof (handle_runs_checks ep req s d) as Hfail.
  pose proof (handle_after_checks ep req s d) as Hpass.
  cbv zeta in Hfail, Hpass.
  destruct (firstFailure (checks ep req s)) as [[calls f]|] eqn:E.
  - destruct Hfail as [-> _].
    rewrite responses_app, responses_map_EAcl. simpl.
    destruct f; simpl; [|by intros ?%elem_of_nil].
    intros ->%list_elem_of_singleton. done.
  - destruct (Hpass eq_refl) as (-> & _ & ->). clear Hfail Hpass E.
    destruct (perform (mutationCall ep req s) s) as [[e0|] s']; simpl.
    + intros ->%list_elem_of_singleton. done.
    + intros ->%list_elem_of_singleton. clear.
      destruct ep; unfold reread, readOf, serve.
      * unfold get_roles. crunch; intros Hok; one_of; done.
      * unfold get_roles. crunch; intros Hok; one_of; done.
      * unfold get_role, get_task, get_callback.
        crunch; intros Hok; one_of; done.
      * unfold get_resource. crunch; intros Hok; one_of; done.
      * unfold get_resource, orArray. crunch; intros Hok; one_of; try done;
          intros _;
          match goal with
          | H : truthyValue ?v = false, H' : negb (truthyValue ?v) = false
            |- _ => by rewrite H in H'
          end.
      * unfold get_role, get_task, get_callback.
        crunch; intros Hok; one_of; done.
Qed.

End ReadFacts.

(** ** What [updateAppRoutes] looks up and saves *)

Lemma splitHead_hasSlash (resc : string) : hasSlash (splitHead resc) = false.
Proof.
  induction resc as [|c s IH]; simpl; [done|].
  destruct (Ascii.eqb c "/") eqn:E; simpl; [done|]. by rewrite E, IH.
Qed.

Lemma splitHead_prefix (resc : string) :
  ∃ rest, resc = splitHead resc +:+ rest
          ∧ (rest = "" ∨ ∃ rest', rest = String "/" rest').
Proof.
  induction resc as [|c s (rest & IH & Hrest)]; simpl.
  - exists "". by split; [|left].
  - destruct (Ascii.eqb c "/") eqn:E.
    + apply Ascii.eqb_eq in E. subst c. exists (String "/" s). simpl.
      split; [done|]. right. by exists s.
    + exists rest. split; [|done].
      change (String c s = String c (splitHead s +:+ rest)). by f_equal.
Qed.

Lemma omap_none {A B} (f : A → option B) (l : list A) :
  (∀ x, x ∈ l → f x = None) → omap f l = [].
Proof.
  induction l as [|x l IH]; intros Hall; simpl; [done|].
  rewrite (Hall x) by (by left). apply IH. intros y Hy. apply Hall. by right.
Qed.

Lemma omap_keys {A} (f : string * A → option (string * list string))
    (l : list (string * A)) :
  (∀ x y, f x = Some y → fst y = fst x) →
  sublist (map fst (omap f l)) (map fst l).
Proof.
  intros Hf. induction l as [|x l IH]; simpl; [constructor|].
  destruct (f x) as [y|] eqn:E; simpl.
  - rewrite (Hf _ _ E). by apply sublist_skip.
  - by apply sublist_cons.
Qed.

Lemma savedRoutes_key (g : Heap) (own : Groups) (x : string * FindResult)
    (y : string * list string) :
  savedRoutes g own x = Some y → fst y = fst x.
Proof. unfold savedRoutes. destruct (snd x); naive_solver. Qed.

Lemma found_keys {Reg} `{!Registry Reg} (d : Reg) (prefixes : list string) :
  map fst (map (fun p => (p, findOne p d)) prefixes) = prefixes.
Proof. rewrite map_map. simpl. apply map_id. Qed.

Lemma ownPropertyNames_elem (resources : list string) (g : Heap) (p : string) :
  p ∈ ownPropertyNames (fst (groupRoutes resources g))
  ↔ p ≠ "__proto__"
    ∧ ∃ resc, resc ∈ resources ∧ notSlashFirst resc = true
              ∧ splitHead resc = p.
Proof.
  unfold ownPropertyNames. rewrite propertyOrder_perm, groupRoutes_names.
  apply groupNames_elem.
Qed.

Section Registry.

Context {St Reg : Type} `{!AclBackend St} `{!Registry Reg}.

Implicit Types (s : St) (d : Reg) (w : World St Reg) (req : Req).

Lemma updateAppRoutes_lookups req s d (g : Heap) :
  lookups (trace (snd (updateAppRoutes req (mkWorldAt s d g []))))
  = propertyOrder (groupNames (requestResources (body req))).
Proof.
  rewrite updateAppRoutes_spec. simpl.
  rewrite lookups_app, lookups_lookups, lookups_saves, app_nil_r.
  unfold ownPropertyNames. by rewrite groupRoutes_names.
Qed.

Lemma updateAppRoutes_saves_once req s d (g : Heap) :
  NoDup (map fst (saves (trace (snd (updateAppRoutes req
                                       (mkWorldAt s d g [])))))).
Proof.
  rewrite updateAppRoutes_spec. simpl.
  rewrite saves_app, saves_lookups, saves_saves. simpl.
  set (prefixes := ownPropertyNames _).
  assert (NoDup prefixes) as Hnd.
  { unfold prefixes, ownPropertyNames.
    rewrite groupRoutes_names, propertyOrder_perm. apply groupNames_NoDup. }
  eapply sublist_NoDup; [exact Hnd|].
  etrans; [apply omap_keys, savedRoutes_key|]. by rewrite found_keys.
Qed.

(** X4: [updateAppRoutes] looks each application up exactly once, whatever
    the heap holds: the lookups of its trace are the prefixes of the
    requested resources that do not begin with '/', [__proto__] left out,
    without repetition, in the order in which JavaScript lists property
    names (array indices first and ascending, then the others as they
    first appear in the request); every lookup is issued before anything
    is saved, and there is at most one save for an application, among
    those looked up. *)
Theorem updateAppRoutes_looks_up_once req s d (g : Heap) :
  let resources := requestResources (body req) in
  let w := snd (updateAppRoutes req (mkWorldAt s d g [])) in
  lookups (trace w) = propertyOrder (groupNames resources)
  ∧ (∀ p, p ∈ lookups (trace w)
          ↔ p ≠ "__proto__"
            ∧ ∃ resc, resc ∈ resources ∧ notSlashFirst resc = true
                      ∧ splitHead resc = p)
  ∧ NoDup (lookups (trace w))
  ∧ (Forall (fun p => arrayIndex p = None) (groupNames resources) →
     lookups (trace w) = groupNames resources)
  ∧ trace w = map EFindOne (lookups (trace w))
              ++ map saveEvent (saves (trace w))
  ∧ sublist (map fst (saves (trace w))) (lookups (trace w))
  ∧ NoDup (map fst (saves (trace w))).
Proof.
  intros resources w. subst w. rewrite updateAppRoutes_spec. simpl.
  fold resources.
  rewrite lookups_app, saves_app, lookups_lookups, lookups_saves,
    saves_lookups, saves_saves, app_nil_r. simpl.
  unfold ownPropertyNames. rewrite groupRoutes_names.
  assert (NoDup (propertyOrder (groupNames resources))) as Hnd.
  { rewrite propertyOrder_perm. apply groupNames_NoDup. }
  assert (sublist
            (map fst (omap (savedRoutes
                              (snd (groupRoutes resources g))
                              (fst (groupRoutes resources g)))
                           (map (fun p => (p, findOne p d))
                                (propertyOrder (groupNames resources)))))
            (propertyOrder (groupNames resources))) as Hsub.
  { etrans; [apply omap_keys, savedRoutes_key|]. by rewrite found_keys. }
  split; [done|]. split.
  { intros p. rewrite propertyOrder_perm. apply groupNames_elem. }
  split; [done|]. split; [apply propertyOrder_plain|].
  split; [done|]. split; [done|].
  by eapply sublist_NoDup.
Qed.

(** X5: the name under which [updateAppRoutes] looks an application up
    has no '/' in it, and some requested resource is that name alone or
    that name followed by '/' and more. *)
Theorem looked_up_prefix_shape req s d (p : string) :
  p ∈ lookups (trace (snd (updateAppRoutes req (mkWorld s d [])))) →
  hasSlash p = false
  ∧ ∃ resc rest,
      resc ∈ requestResources (body req)
      ∧ resc = p +:+ rest
      ∧ (rest = "" ∨ ∃ rest', rest = String "/" rest').
Proof.
  rewrite updateAppRoutes_spec. simpl.
  rewrite lookups_app, lookups_lookups, lookups_saves, app_nil_r.
  intros (_ & resc & Hin & _ & <-)%ownPropertyNames_elem.
  split; [apply splitHead_hasSlash|].
  destruct (splitHead_prefix resc) as (rest & E & Hrest).
  by exists resc, rest.
Qed.

(** X6: when the registry has no document for any of the prefixes, be it
    that the lookup fails or that it finds nothing, [updateAppRoutes]
    saves nothing and leaves the registry as it was. *)
Theorem unregistered_prefixes_save_nothing req s d :
  (∀ resc routes,
     resc ∈ requestResources (body req) →
     notSlashFirst resc = true →
     findOne (splitHead resc) d ≠ FindDoc routes) →
  let w := snd (updateAppRoutes req (mkWorld s d [])) in
  db w = d ∧ saves (trace w) = [] ∧ acl w = s.
Proof.
  intros Hnone w. subst w. rewrite updateAppRoutes_spec. simpl.
  rewrite omap_none.
  - simpl. by rewrite app_nil_r, saves_lookups.
  - intros [p f] [q [[= -> ->] Hq]]%list_elem_of_fmap.
    apply ownPropertyNames_elem in Hq as (_ & resc & Hin & Hns & <-).
    unfold savedRoutes. simpl.
    destruct (findOne (splitHead resc) d) as [e| |routes] eqn:Hf; try done.
    by destruct (Hnone resc routes).
Qed.

End Registry.

(** ** Grouping when nothing is shared *)

Lemma inherited_clean (g : Heap) (name : string) :
  protoRoutes g = None →
  name ≠ "__proto__" →
  inherited g name
  = match arityOf name with
    | Some _ => VFunction name
    | None => VUndefined
    end.
Proof.
  intros Hp Hn. unfold inherited. apply String.eqb_neq in Hn. rewrite Hn, Hp.
  destruct (arityOf name); [done|]. by destruct (String.eqb name "routes").
Qed.

Lemma arityOf_proto : arityOf "__proto__" = None.
Proof. reflexivity. Qed.

(** The routes of a group in a tidy state. *)
Lemma startingRoutes_tidy (own : Groups) (g : Heap) (p : string) :
  tidy own g →
  startingRoutes g own p
  = match assoc p own with
    | Some (AObject (Some routes)) => routes
    | Some _ => default [] (memberRoutes g !! p)
    | None =>
        match arityOf p with
        | Some _ => default [] (memberRoutes g !! p)
        | None => []
        end
    end.
Proof.
  intros [Hproto Hown]. unfold startingRoutes, readApp.
  destruct (assoc p own) as [app|] eqn:Ha.
  - destruct (Hown _ _ Ha) as [[-> _]|(routes & -> & _)]; simpl; [|done].
    rewrite Hproto. by destruct (memberRoutes g !! p).
  - destruct (decide (p = "__proto__")) as [->|Hne].
    + unfold inherited. simpl. by rewrite Hproto.
    + rewrite inherited_clean by done.
      destruct (arityOf p); simpl; rewrite Hproto; [|done].
      by destruct (memberRoutes g !! p).
Qed.

(** The step of the loop in a tidy state, for a resource whose prefix is
    not [__proto__]: the resource goes to the array of its own group. *)
Lemma groupStep_eq (own : Groups) (g : Heap) (resc : string) :
  tidy own g →
  notSlashFirst resc = true →
  splitHead resc ≠ "__proto__" →
  groupStep (own, g) resc
  = match arityOf (splitHead resc) with
    | Some _ =>
        (setOwn (splitHead resc) (AFunction (splitHead resc)) own,
         withMember (splitHead resc)
                    (startingRoutes g own (splitHead resc) ++ [resc]) g)
    | None =>
        (setOwn (splitHead resc)
                (AObject (Some (startingRoutes g own (splitHead resc)
                                ++ [resc]))) own,
         g)
    end.
Proof.
  intros Htidy Hns Hnp. pose proof Htidy as [Hproto Hown].
  rewrite (startingRoutes_tidy _ _ _ Htidy).
  unfold groupStep. rewrite Hns. unfold readApp, assign.
  apply String.eqb_neq in Hnp as Hnp'. rewrite Hnp'.
  destruct (assoc (splitHead resc) own) as [app|] eqn:Ha.
  - destruct (Hown _ _ Ha) as [[-> [n Hf]]|(l & -> & Hf)]; rewrite Hf; simpl.
    + unfold pushRoute. simpl. rewrite Hproto.
      by destruct (memberRoutes g !! splitHead resc).
    + done.
  - rewrite inherited_clean by done.
    destruct (arityOf (splitHead resc)) as [n|] eqn:Hf; simpl.
    + unfold pushRoute. simpl. rewrite Hproto.
      by destruct (memberRoutes g !! splitHead resc).
    + unfold pushRoute. simpl. by rewrite Hproto.
Qed.

Lemma tidy_setOwn (own : Groups) (g g' : Heap) (k : string) (app : App) :
  tidy own g →
  protoRoutes g' = None →
  (app = AFunction k ∧ is_Some (arityOf k))
  ∨ (∃ routes, app = AObject (Some routes) ∧ arityOf k = None) →
  tidy (setOwn k app own) g'.
Proof.
  intros [_ Hown] Hproto Happ. split; [done|].
  intros k' app'. rewrite assoc_setOwn.
  destruct (String.eqb k k') eqn:E; [|apply Hown].
  apply String.eqb_eq in E. subst k'. by intros [= <-].
Qed.

Lemma groupStep_tidy (own : Groups) (g : Heap) (resc : string) :
  tidy own g →
  groupedUnder "__proto__" resc = false →
  tidy (fst (groupStep (own, g) resc)) (snd (groupStep (own, g) resc))
  ∧ ∀ p, startingRoutes (snd (groupStep (own, g) resc))
                        (fst (groupStep (own, g) resc)) p
         = startingRoutes g own p
           ++ (if groupedUnder p resc then [resc] else []).
Proof.
  intros Htidy Hnp. unfold groupedUnder in *.
  destruct (notSlashFirst resc) eqn:Hns; simpl in Hnp.
  2: { unfold groupStep. rewrite Hns. simpl. split; [done|].
       intros p. by rewrite app_nil_r. }
  apply String.eqb_neq in Hnp.
  rewrite (groupStep_eq _ _ _ Htidy Hns Hnp). cbn [andb].
  pose proof Htidy as [Hproto Hown].
  set (appName := splitHead resc) in *.
  set (routes := startingRoutes g own appName ++ [resc]).
  destruct (arityOf appName) as [n|] eqn:Hf; simpl.
  - assert (tidy (setOwn appName (AFunction appName) own)
                 (withMember appName routes g)) as Ht'.
    { apply (tidy_setOwn _ g); [done|done|]. left. split; [done|by eexists]. }
    split; [done|]. intros p.
    rewrite (startingRoutes_tidy _ _ _ Ht'), assoc_setOwn.
    destruct (String.eqb appName p) eqn:E.
    + apply String.eqb_eq in E. subst p. simpl.
      by rewrite lookup_insert_eq.
    + apply String.eqb_neq in E.
      rewrite (startingRoutes_tidy _ _ _ Htidy), app_nil_r. simpl.
      by rewrite lookup_insert_ne.
  - assert (tidy (setOwn appName (AObject (Some routes)) own) g) as Ht'.
    { apply (tidy_setOwn _ g); [done|done|]. right. by eexists. }
    split; [done|]. intros p.
    rewrite (startingRoutes_tidy _ _ _ Ht'), assoc_setOwn.
    destruct (String.eqb appName p) eqn:E.
    + apply String.eqb_eq in E. by subst p.
    + by rewrite (startingRoutes_tidy _ _ _ Htidy), app_nil_r.
Qed.

Lemma groupFold_tidy (resources : list string) (own : Groups) (g : Heap) :
  tidy own g →
  (∀ resc, resc ∈ resources → groupedUnder "__proto__" resc = false) →
  tidy (fst (fold_left groupStep resources (own, g)))
       (snd (fold_left groupStep resources (own, g)))
  ∧ ∀ p, startingRoutes (snd (fold_left groupStep resources (own, g)))
                        (fst (fold_left groupStep resources (own, g))) p
         = startingRoutes g own p ++ List.filter (groupedUnder p) resources.
Proof.
  revert own g. induction resources as [|r rs IH]; intros own g Htidy Hnp.
  - simpl. split; [done|]. intros p. by rewrite app_nil_r.
  - cbn [fold_left List.filter].
    destruct (groupStep_tidy own g r Htidy) as [Ht' Hstart].
    { apply Hnp. by left. }
    destruct (groupStep (own, g) r) as [own' g'] eqn:Hstep.
    cbn [fst snd] in Ht', Hstart.
    destruct (IH own' g' Ht') as [Ht'' Hfold].
    { intros resc Hin. apply Hnp. by right. }
    split; [done|]. intros p. rewrite Hfold, Hstart.
    destruct (groupedUnder p r); simpl; by rewrite <- ?app_assoc, ?app_nil_r.
Qed.

Lemma tidy_start (g : Heap) : protoRoutes g = None → tidy [] g.
Proof. intros Hp. split; [done|]. by intros k app. Qed.

Lemma filter_nil_iff {A} (f : A → bool) (l : list A) :
  List.filter f l = [] ↔ ∀ x, x ∈ l → f x = false.
Proof.
  induction l as [|x l IH]; simpl.
  - split; [by intros _ ? ?%elem_of_nil|done].
  - destruct (f x) eqn:E.
    + split; [done|]. intros H. specialize (H x (list_elem_of_here _ _)).
      congruence.
    + rewrite IH. split.
      * intros H y [->|Hy]%elem_of_cons; [done|by apply H].
      * intros H y Hy. apply H. by right.
Qed.

(** The groups of a run that starts with nothing shared, for resources of
    which none has the prefix [__proto__]: each group holds the requested
    resources of its prefix after what the heap held for it, and the run
    shares nothing either. *)
Lemma groupRoutes_tidy (resources : list string) (g : Heap) (p : string) :
  protoRoutes g = None →
  (∀ resc, resc ∈ resources → groupedUnder "__proto__" resc = false) →
  tidy (fst (groupRoutes resources g)) (snd (groupRoutes resources g))
  ∧ routesOf (snd (groupRoutes resources g)) (fst (groupRoutes resources g)) p
    = match List.filter (groupedUnder p) resources with
      | [] => []
      | group => startingRoutes g [] p ++ group
      end.
Proof.
  intros Hproto Hnp.
  set (own := fst (groupRoutes resources g)).
  set (g' := snd (groupRoutes resources g)).
  assert (tidy own g'
          ∧ ∀ q, startingRoutes g' own q
                 = startingRoutes g [] q
                   ++ List.filter (groupedUnder q) resources)
    as [Ht Hfold]
    by exact (groupFold_tidy resources [] g (tidy_start g Hproto) Hnp).
  assert (map fst own = groupNames resources) as Hnames
    by apply groupRoutes_names.
  split; [done|].
  specialize (Hfold p). unfold routesOf. clearbody own g'.
  destruct (assoc p own) as [app|] eqn:Ha.
  - assert (startingRoutes g' own p = default [] (appRoutes g' app)) as <-
      by (unfold startingRoutes, readApp; by rewrite Ha).
    rewrite Hfold.
    destruct (List.filter (groupedUnder p) resources) eqn:Hf; [|done].
    exfalso.
    assert (p ∈ groupNames resources) as Hin
      by (rewrite <- Hnames; apply assoc_keys; by eexists).
    apply groupNames_elem in Hin as (Hne & resc & Hin & Hns & Hp).
    rewrite filter_nil_iff in Hf. specialize (Hf resc Hin).
    unfold groupedUnder in Hf. rewrite Hns, Hp, String.eqb_refl in Hf. done.
  - assert (List.filter (groupedUnder p) resources = []) as ->; [|done].
    apply filter_nil_iff. intros resc Hin.
    destruct (groupedUnder p resc) eqn:Hgr; [|done]. exfalso.
    unfold groupedUnder in Hgr. apply andb_true_iff in Hgr as [Hns Hp].
    apply String.eqb_eq in Hp.
    assert (p ∉ groupNames resources) as Hout.
    { rewrite <- Hnames. by apply assoc_None. }
    apply Hout, groupNames_elem. split; [|by exists resc].
    intros ->. specialize (Hnp resc Hin). unfold groupedUnder in Hnp.
    by rewrite Hns, Hp, String.eqb_refl in Hnp.
Qed.

Lemma startingRoutes_untouched (p : string) : startingRoutes untouched [] p = [].
Proof.
  rewrite (startingRoutes_tidy _ _ _ (tidy_start untouched eq_refl)). simpl.
  by destruct (arityOf p).
Qed.

Lemma groupRoutes_untouched (resources : list string) (p : string) :
  (∀ resc, resc ∈ resources → groupedUnder "__proto__" resc = false) →
  routesOf (snd (groupRoutes resources untouched))
           (fst (groupRoutes resources untouched)) p
  = List.filter (groupedUnder p) resources.
Proof.
  intros Hnp.
  destruct (groupRoutes_tidy resources untouched p eq_refl Hnp) as [_ ->].
  rewrite startingRoutes_untouched.
  by destruct (List.filter (groupedUnder p) resources).
Qed.

Lemma grouped_iff (resources : list string) (p r : string) :
  r ∈ List.filter (groupedUnder p) resources
  ↔ r ∈ resources ∧ groupedUnder p r = true.
Proof. by rewrite list_elem_of_In, List.filter_In, <- list_elem_of_In. Qed.

(** X3: when no requested resource has the prefix [__proto__] and
    [Object.prototype] and its functions are untouched (no request has
    left [routes] on them), the routes that [updateAppRoutes] groups
    under an application are the requested resources that do not
    begin with '/' and whose text before the first '/' is the
    application's name, in the order of the request and as often as the
    request names them; an application has a group exactly when there is
    such a resource, no application has two, and [Object.prototype] is
    left without [routes]. *)
Theorem groupRoutes_exact (resources : list string) (p : string) :
  (∀ resc, resc ∈ resources → groupedUnder "__proto__" resc = false) →
  let newAppRoutes := fst (groupRoutes resources untouched) in
  let g := snd (groupRoutes resources untouched) in
  routesOf g newAppRoutes p = List.filter (groupedUnder p) resources
  ∧ (p ∈ map fst newAppRoutes
     ↔ List.filter (groupedUnder p) resources ≠ [])
  ∧ NoDup (map fst newAppRoutes)
  ∧ protoRoutes g = None.
Proof.
  intros Hnp newAppRoutes g. subst newAppRoutes g.
  split; [by apply groupRoutes_untouched|].
  rewrite groupRoutes_names. split; [|split].
  - rewrite groupNames_elem. split.
    + intros (_ & resc & Hin & Hns & Hp) Hnil.
      rewrite filter_nil_iff in Hnil. specialize (Hnil resc Hin).
      unfold groupedUnder in Hnil.
      by rewrite Hns, Hp, String.eqb_refl in Hnil.
    + intros Hne.
      destruct (List.filter (groupedUnder p) resources) as [|r l] eqn:Hf;
        [done|].
      assert (r ∈ List.filter (groupedUnder p) resources) as Hr
        by (rewrite Hf; by left).
      apply grouped_iff in Hr as [Hin Hgr]. split.
      * intros ->. specialize (Hnp r Hin). congruence.
      * unfold groupedUnder in Hgr. apply andb_true_iff in Hgr as [Hns Hp].
        apply String.eqb_eq in Hp. by exists r.
  - apply groupNames_NoDup.
  - by destruct (groupRoutes_tidy resources untouched p eq_refl Hnp)
      as [[Hproto _] _].
Qed.

Section Saves.

Context {St Reg : Type} `{!AclBackend St} `{!Registry Reg}.

Implicit Types (s : St) (d : Reg) (w : World St Reg) (req : Req).

(** A save of [updateAppRoutes], read off its closed form: the prefix was
    looked up, the lookup found a document in the registry as it was, and
    the routes saved are that document's merged with the group. *)
Lemma saved_by_updateAppRoutes req s d (g : Heap) (p : string)
    (routes : list string) :
  let grouped := groupRoutes (requestResources (body req)) g in
  (p, routes) ∈ saves (trace (snd (updateAppRoutes req (mkWorldAt s d g []))))
  ↔ p ∈ ownPropertyNames (fst grouped)
    ∧ ∃ found,
        findOne p d = FindDoc found
        ∧ routes = mergeRoutes (default [] found)
                               (routesOf (snd grouped) (fst grouped) p).
Proof.
  intros grouped. rewrite updateAppRoutes_spec. simpl. fold grouped.
  rewrite saves_app, saves_lookups, saves_saves. simpl.
  rewrite list_elem_of_omap. split.
  - intros ([q f] & [q' [[= -> ->] Hq]]%list_elem_of_fmap & Hsaved).
    unfold savedRoutes in Hsaved. simpl in Hsaved.
    destruct (findOne q' d) as [e| |found] eqn:Hf; simplify_eq.
    split; [done|]. by exists found.
  - intros (Hp & found & Hf & ->). exists (p, findOne p d). split.
    + apply list_elem_of_fmap. by exists p.
    + unfold savedRoutes. simpl. by rewrite Hf.
Qed.

(** X7: when no requested resource has the prefix [__proto__] and
    [Object.prototype] and its functions are untouched (no request has
    left [routes] on them), whatever [updateAppRoutes] saves for an
    application is the routes of the document that the registry had
    for it when the request came, in place, followed by the requested
    resources of that application that the document lacked, each once:
    saving never drops or moves a registered route and never adds a route
    of another application. *)
Theorem saves_extend_the_document req s d (p : string) (routes : list string) :
  (∀ resc, resc ∈ requestResources (body req) →
           groupedUnder "__proto__" resc = false) →
  (p, routes) ∈ saves (trace (snd (updateAppRoutes req (mkWorld s d [])))) →
  ∃ found added,
    findOne p d = FindDoc found
    ∧ routes = default [] found ++ added
    ∧ NoDup added
    ∧ ∀ r, r ∈ added
           ↔ (r ∈ requestResources (body req) ∧ groupedUnder p r = true)
             ∧ r ∉ default [] found.
Proof.
  intros Hnp (_ & found & Hf & ->)%saved_by_updateAppRoutes.
  rewrite groupRoutes_untouched by done.
  destruct (mergeRoutes_added (default [] found)
              (List.filter (groupedUnder p) (requestResources (body req))))
    as (added & E & Hnd & Hadd).
  exists found, added. split; [done|]. split; [done|]. split; [done|].
  intros r. by rewrite Hadd, grouped_iff.
Qed.

End Saves.

(** ** Notifying a registry of documents twice *)

Section Twice.

Context {St Reg : Type} `{!AclBackend St} `{!Registry Reg}.

Implicit Types (s : St) (d : Reg) (w : World St Reg) (req : Req).

(** What the registry has after a series of saves under distinct
    prefixes, each of a document that was there. *)
Lemma findOne_after_saves (saved : list (string * list string)) d
    (p : string) :
  keepsDocuments →
  NoDup (map fst saved) →
  (∀ q routes, (q, routes) ∈ saved → ∃ found, findOne q d = FindDoc found) →
  findOne p (fold_left saveOne saved d)
  = match assoc p saved with
    | Some routes => FindDoc (Some routes)
    | None => findOne p d
    end.
Proof.
  intros (Hother & Hsaved & Hsame).
  revert d. induction saved as [|[q r] saved IH]; intros d Hnd Hdoc; [done|].
  simpl in Hnd. apply NoDup_cons in Hnd as [Hq Hnd]. simpl.
  rewrite IH; [|done|].
  - destruct (String.eqb q p) eqn:E.
    + apply String.eqb_eq in E. subst p.
      apply assoc_None in Hq. rewrite Hq. unfold saveOne. simpl.
      destruct (Hdoc q r) as [found Hf]; [by left|].
      by eapply Hsaved.
    + apply String.eqb_neq in E. destruct (assoc p saved); [done|].
      unfold saveOne. simpl. by apply Hother.
  - intros q' r' Hin. destruct (Hdoc q' r') as [found Hf]; [by right|].
    exists found. unfold saveOne. simpl. rewrite Hother; [done|].
    intros ->. apply Hq. apply list_elem_of_fmap. by exists (q, r').
Qed.

Lemma saves_of_what_is_there (saved : list (string * list string)) d :
  keepsDocuments →
  (∀ q routes, (q, routes) ∈ saved → findOne q d = FindDoc (Some routes)) →
  fold_left saveOne saved d = d.
Proof.
  intros (Hother & Hsaved & Hsame).
  induction saved as [|[q r] saved IH]; intros Hdoc; [done|].
  simpl. unfold saveOne at 2. simpl.
  rewrite Hsame by (apply Hdoc; by left).
  apply IH. intros q' r' Hin. apply Hdoc. by right.
Qed.

Lemma assoc_NoDup {A} (k : string) (a : A) (l : list (string * A)) :
  NoDup (map fst l) → (k, a) ∈ l → assoc k l = Some a.
Proof.
  induction l as [|[k' a'] l IH]; simpl; [by intros _ ?%elem_of_nil|].
  intros [Hk Hnd]%NoDup_cons [[= -> ->]|Hin]%elem_of_cons.
  - by rewrite String.eqb_refl.
  - destruct (String.eqb k' k) eqn:E; [|by apply IH].
    apply String.eqb_eq in E. subst k'. destruct Hk.
    apply list_elem_of_fmap. by exists (k, a).
Qed.

(** X19: on a registry that keeps one document for a prefix, and for a
    request of which no resource has the prefix [__proto__],
    [updateAppRoutes] is idempotent: when the first run starts with
    [Object.prototype] and its functions untouched, a second run for the
    same request, on the registry and the heap that the first run left,
    leaves that registry as it is. *)
Theorem updateAppRoutes_twice req s d s2 :
  keepsDocuments →
  (∀ resc, resc ∈ requestResources (body req) →
           groupedUnder "__proto__" resc = false) →
  let w1 := snd (updateAppRoutes req (mkWorld s d [])) in
  let w2 := snd (updateAppRoutes req (mkWorldAt s2 (db w1) (heap w1) [])) in
  db w2 = db w1.
Proof.
  intros Hkeeps Hnp w1 w2.
  set (resources := requestResources (body req)) in *.
  assert (∀ p routes,
            (p, routes) ∈ saves (trace w1)
            ↔ p ∈ propertyOrder (groupNames resources)
              ∧ ∃ found, findOne p d = FindDoc found
                         ∧ routes = mergeRoutes (default [] found)
                                      (List.filter (groupedUnder p) resources))
    as Hsaves1.
  { intros p routes. subst w1. rewrite saved_by_updateAppRoutes.
    fold resources. rewrite groupRoutes_untouched by done.
    unfold ownPropertyNames. by rewrite groupRoutes_names. }
  assert (db w1 = fold_left saveOne (saves (trace w1)) d
          ∧ NoDup (map fst (saves (trace w1)))
          ∧ protoRoutes (heap w1) = None) as (Hdb1 & Hnd1 & Hproto1).
  { pose proof (updateAppRoutes_saves_once req s d untouched) as Hnd.
    split; [|split; [exact Hnd|]].
    - subst w1. rewrite updateAppRoutes_spec. simpl.
      by rewrite saves_app, saves_lookups, saves_saves.
    - subst w1. rewrite updateAppRoutes_spec. simpl. fold resources.
      by destruct (groupRoutes_tidy resources untouched "" eq_refl Hnp)
        as [[Hproto _] _]. }
  assert (∀ p, findOne p (db w1)
               = match assoc p (saves (trace w1)) with
                 | Some routes => FindDoc (Some routes)
                 | None => findOne p d
                 end) as Hfind1.
  { intros p. rewrite Hdb1. apply findOne_after_saves; [done|done|].
    intros q routes (_ & found & Hf & _)%Hsaves1. by exists found. }
  assert (db w2 = fold_left saveOne (saves (trace w2)) (db w1)) as ->.
  { subst w2. rewrite updateAppRoutes_spec. simpl.
    by rewrite saves_app, saves_lookups, saves_saves. }
  apply saves_of_what_is_there; [done|].
  intros p routes2. subst w2. rewrite saved_by_updateAppRoutes.
  fold resources. unfold ownPropertyNames. rewrite groupRoutes_names.
  intros (Hp & found2 & Hf2 & ->).
  destruct (groupRoutes_tidy resources (heap w1) p Hproto1 Hnp) as [_ ->].
  rewrite Hfind1 in Hf2.
  assert (∀ r, r ∈ startingRoutes (heap w1) [] p →
               r ∈ List.filter (groupedUnder p) resources) as Hstale.
  { intros r. subst w1. rewrite updateAppRoutes_spec. simpl. fold resources.
    destruct (groupRoutes_tidy resources untouched p eq_refl Hnp)
      as [Ht1 Hroutes1].
    rewrite startingRoutes_untouched in Hroutes1.
    assert (routesOf (snd (groupRoutes resources untouched))
                     (fst (groupRoutes resources untouched)) p
            = List.filter (groupedUnder p) resources) as Hr1
      by (rewrite Hroutes1;
          by destruct (List.filter (groupedUnder p) resources)).
    rewrite <- Hr1.
    rewrite (startingRoutes_tidy _ _ _ (tidy_start _ (proj1 Ht1))). simpl.
    unfold routesOf.
    destruct (arityOf p) as [n|] eqn:Hn; [|by intros ?%elem_of_nil].
    destruct (assoc p (fst (groupRoutes resources untouched)))
      as [app|] eqn:Ha.
    - destruct (proj2 Ht1 _ _ Ha) as [[-> _]|(l & -> & Hnone)];
        [|congruence].
      simpl. rewrite (proj1 Ht1).
      by destruct (memberRoutes (snd (groupRoutes resources untouched)) !! p).
    - intros Hin. exfalso.
      pose proof (groupFold_tidy resources [] untouched
                    (tidy_start untouched eq_refl) Hnp) as [Ht Hfold].
      specialize (Hfold p). rewrite startingRoutes_untouched in Hfold.
      change (fold_left groupStep resources ([], untouched))
        with (groupRoutes resources untouched) in Hfold, Ht.
      rewrite (startingRoutes_tidy _ _ _ Ht), Ha, Hn in Hfold.
      rewrite Hfold in Hin. simpl in Hin.
      apply grouped_iff in Hin as [Hin Hgr].
      assert (p ∈ groupNames resources) as Hown.
      { apply groupNames_elem. unfold groupedUnder in Hgr.
        apply andb_true_iff in Hgr as [Hns Heq]. apply String.eqb_eq in Heq.
        split; [|by exists r]. intros ->. by rewrite arityOf_proto in Hn. }
      rewrite <- (groupRoutes_names resources untouched) in Hown.
      apply assoc_keys in Hown as [? Hown]. congruence. }
  destruct (assoc p (saves (trace w1))) as [routes1|] eqn:Ha1.
  - simplify_eq. simpl. rewrite Hfind1, Ha1. f_equal. f_equal. symmetry.
    apply assoc_elem, Hsaves1 in Ha1 as (_ & found1 & Hf1 & ->).
    apply mergeRoutes_present. intros r Hr. apply mergeRoutes_elem. right.
    destruct (List.filter (groupedUnder p) resources) as [|x l] eqn:Hfl;
      [by apply elem_of_nil in Hr|].
    apply elem_of_app in Hr as [Hr|Hr]; [by apply Hstale|done].
  - exfalso. apply assoc_None in Ha1. apply Ha1.
    apply list_elem_of_fmap.
    exists (p, mergeRoutes (default [] found2)
                 (List.filter (groupedUnder p) resources)).
    split; [done|]. apply Hsaves1. split; [done|]. by exists found2.
Qed.

End Twice.

(** ** Once [Object.prototype] has [routes] *)

(** In a state of the loop in which everything is shared
    ([Object.prototype] has the array [routes], no function of it has one
    of its own, and no group has one either), whatever a group reads as
    its routes is that array. *)
Lemma appRoutes_shared (g : Heap) (app : App) :
  memberRoutes g = ∅ →
  (∀ l, app ≠ AObject (Some l)) →
  appRoutes g app = protoRoutes g.
Proof.
  intros Hmem Hn. destruct app as [[l|]|f| |]; simpl; try done.
  - by destruct (Hn l).
  - by rewrite Hmem, lookup_empty.
Qed.

Lemma groupFold_shared (resources : list string) (own : Groups) (g : Heap)
    (routes : list string) :
  protoRoutes g = Some routes →
  memberRoutes g = ∅ →
  (∀ k app, assoc k own = Some app → ∀ l, app ≠ AObject (Some l)) →
  protoRoutes (snd (fold_left groupStep resources (own, g)))
  = Some (routes ++ List.filter notSlashFirst resources)
  ∧ memberRoutes (snd (fold_left groupStep resources (own, g))) = ∅
  ∧ ∀ k app, assoc k (fst (fold_left groupStep resources (own, g))) = Some app →
             ∀ l, app ≠ AObject (Some l).
Proof.
  revert own g routes.
  induction resources as [|r rs IH]; intros own g routes Hproto Hmem Hown.
  - simpl. by rewrite app_nil_r.
  - cbn [fold_left List.filter].
    destruct (notSlashFirst r) eqn:Hns.
    2: { assert (groupStep (own, g) r = (own, g)) as ->
           by (unfold groupStep; by rewrite Hns).
         by apply IH. }
    assert (∃ app,
              default (AObject None) (readApp g own (splitHead r)) = app
              ∧ (∀ l, app ≠ AObject (Some l))) as (app & Happ & Hshared).
    { unfold readApp.
      destruct (assoc (splitHead r) own) as [app|] eqn:Ha.
      - exists app. split; [done|]. by eapply Hown.
      - destruct (inherited g (splitHead r)); by eexists. }
    assert (groupStep (own, g) r
            = (assign (splitHead r) app own, withProto (routes ++ [r]) g))
      as ->.
    { unfold groupStep. rewrite Hns, Happ. unfold pushRoute.
      rewrite (appRoutes_shared g app Hmem Hshared), Hproto.
      destruct app as [[l|]|f| |]; simpl; rewrite ?Hmem, ?lookup_empty;
        try done. by destruct (Hshared l). }
    destruct (IH (assign (splitHead r) app own) (withProto (routes ++ [r]) g)
                 (routes ++ [r])) as (Hp & Hm & Ho); [done|done| |].
    + intros k app'. unfold assign.
      destruct (String.eqb (splitHead r) "__proto__"); [apply Hown|].
      rewrite assoc_setOwn.
      destruct (String.eqb (splitHead r) k); [|apply Hown].
      by intros [= <-].
    + split; [|done]. rewrite Hp. by rewrite <- app_assoc.
Qed.

Lemma groupRoutes_shared (resources : list string) (g : Heap)
    (routes : list string) (p : string) :
  protoRoutes g = Some routes →
  memberRoutes g = ∅ →
  protoRoutes (snd (groupRoutes resources g))
  = Some (routes ++ List.filter notSlashFirst resources)
  ∧ (p ∈ map fst (fst (groupRoutes resources g)) →
     routesOf (snd (groupRoutes resources g))
              (fst (groupRoutes resources g)) p
     = routes ++ List.filter notSlashFirst resources).
Proof.
  intros Hproto Hmem.
  set (own := fst (groupRoutes resources g)).
  set (g' := snd (groupRoutes resources g)).
  assert (protoRoutes g'
          = Some (routes ++ List.filter notSlashFirst resources)
          ∧ memberRoutes g' = ∅
          ∧ ∀ k app, assoc k own = Some app → ∀ l, app ≠ AObject (Some l))
    as (Hp & Hm & Ho)
    by (apply (groupFold_shared resources [] g routes Hproto Hmem);
        by intros k app).
  split; [exact Hp|].
  intros [app Ha]%assoc_keys. unfold routesOf. rewrite Ha.
  by rewrite (appRoutes_shared g' app Hm (Ho p app Ha)), Hp.
Qed.

Section Shared.

Context {St Reg : Type} `{!AclBackend St} `{!Registry Reg}.

Implicit Types (s : St) (d : Reg) (w : World St Reg) (req : Req).

(** X21: once [Object.prototype] has the array [routes] (and no function
    of it has one of its own), the groups of [updateAppRoutes] are all
    that one array: on a registry whose documents have their [routes],
    every application that is looked up and found is saved with its routes
    merged with everything the array held and with every requested
    resource that does not begin with '/', whatever its prefix; and the
    array keeps them all for the requests to come. *)
Theorem shared_routes_reach_every_application req s d (g : Heap)
    (held : list string) :
  protoRoutes g = Some held →
  memberRoutes g = ∅ →
  (∀ p, findOne p d ≠ FindDoc None) →
  let w := snd (updateAppRoutes req (mkWorldAt s d g [])) in
  let all := held ++ List.filter notSlashFirst (requestResources (body req)) in
  protoRoutes (heap w) = Some all
  ∧ ∀ p routes,
      (p, routes) ∈ saves (trace w)
      ↔ p ∈ lookups (trace w)
        ∧ ∃ found, findOne p d = FindDoc (Some found)
                   ∧ routes = mergeRoutes found all.
Proof.
  intros Hproto Hmem Hdocs w all. subst w all. split.
  - rewrite updateAppRoutes_spec. simpl.
    by destruct (groupRoutes_shared (requestResources (body req)) g held ""
                   Hproto Hmem) as [-> _].
  - intros p routes. rewrite saved_by_updateAppRoutes.
    rewrite updateAppRoutes_lookups.
    unfold ownPropertyNames. rewrite groupRoutes_names.
    assert (p ∈ propertyOrder (groupNames (requestResources (body req))) →
            routesOf (snd (groupRoutes (requestResources (body req)) g))
                     (fst (groupRoutes (requestResources (body req)) g)) p
            = held ++ List.filter notSlashFirst (requestResources (body req)))
      as Hall.
    { intros Hp.
      destruct (groupRoutes_shared (requestResources (body req)) g held p
                  Hproto Hmem) as [_ ->]; [done|].
      rewrite groupRoutes_names. by rewrite <- propertyOrder_perm. }
    split.
    + intros (Hp & [found|] & Hf & ->); [|by destruct (Hdocs p)].
      split; [done|]. exists found. split; [done|]. simpl.
      by rewrite (Hall Hp).
    + intros (Hp & found & Hf & ->). split; [done|].
      exists (Some found). split; [done|]. simpl. by rewrite (Hall Hp).
Qed.

End Shared.

Section Inherited.

Context {St Reg : Type} `{!AclBackend St} `{!AclUsers St} `{!Registry Reg}.

Implicit Types (s : St) (d : Reg) (w : World St Reg) (req : Req).

(** X22: a name under which every object inherits a member
    ([constructor], [toString], [__proto__], ...) passes for a resource of
    any role that exists, also when the role has no resource of that
    name: a POST of permissions on it reaches [allow], a GET of it is
    answered with the inherited member, and its DELETE passes that member
    on to [removeAllow] as the permissions to remove. *)
Theorem inherited_names_count_as_resources req s d (result : ResMap) :
  let roleName := orEmpty (p_roleName (params req)) in
  let resource := orEmpty (p_0 (params req)) in
  existsRole roleName s = None →
  whatResources roleName s = inr result →
  result !! resource = None →
  resource ∈ inheritedNames →
  (truthy (b_permissions (body req)) = true →
   List.filter isMutation (aclCalls (trace (run (post_permissions req) s d)))
   = [CAllow roleName (Str resource) (arr (b_permissions (body req)))])
  ∧ trace (run (get_resource req) s d)
    = [EAcl (CExistsRole roleName); EAcl (CWhatResources roleName);
       EJson (inherited untouched resource)]
  ∧ List.filter isMutation (aclCalls (trace (run (delete_resource req) s d)))
    = [CRemoveAllow roleName resource (Other (inherited untouched resource))].
Proof.
  intros roleName resource Hex Hwhat Hown Hin.
  assert (member untouched result resource = inherited untouched resource)
    as Hm by (unfold member; by rewrite Hown).
  destruct (inherited_untouched resource) as [[Hout _]|(_ & Ht & Hn)];
    [done|].
  assert (asPermissions (inherited untouched resource)
          = Other (inherited untouched resource)) as Hperm.
  { destruct (inherited untouched resource) eqn:E; try done.
    by destruct (Hn l). }
  split; [|split].
  - intros Hp. unfold post_permissions. fold roleName resource.
    repeat first [rewrite Hex | rewrite Hwhat | rewrite Hm | rewrite Ht
                 | rewrite Hp | progress mon].
    destruct (allow roleName (Str resource) (arr (b_permissions (body req))) s)
      as [[e|] s']; mon; [done|].
    destruct (whatResources roleName s'); by mon.
  - unfold get_resource. fold roleName resource.
    repeat first [rewrite Hex | rewrite Hwhat | rewrite Hm | rewrite Ht
                 | progress mon].
    done.
  - unfold delete_resource. fold roleName resource.
    repeat first [rewrite Hex | rewrite Hwhat | rewrite Hm | rewrite Ht
                 | rewrite Hperm | progress mon].
    destruct (removeAllow roleName resource
                (Other (inherited untouched resource)) s) as [[e|] s'];
      mon; [done|].
    destruct (whatResources roleName s'); by mon.
Qed.

End Inherited.

(** ** How [Object.prototype] comes to have [routes] *)

Lemma pushRoute_keeps_proto (app : App) (r : string) (g : Heap) :
  is_Some (protoRoutes g) → is_Some (protoRoutes (snd (pushRoute app r g))).
Proof.
  intros Hg. unfold pushRoute.
  destruct (appRoutes g app) as [routes|];
    destruct app as [[own|]|f| |]; simpl;
    try destruct (memberRoutes g !! f); simpl; try done; by eexists.
Qed.

Lemma groupStep_keeps_proto (st : Groups * Heap) (r : string) :
  is_Some (protoRoutes (snd st)) →
  is_Some (protoRoutes (snd (groupStep st r))).
Proof.
  destruct st as [own g]. simpl. intros Hg. unfold groupStep.
  destruct (notSlashFirst r); simpl; [|done].
  pose proof (pushRoute_keeps_proto
                (default (AObject None) (readApp g own (splitHead r))) r g Hg)
    as Hpush.
  by destruct (pushRoute _ r g).
Qed.

Lemma groupFold_keeps_proto (resources : list string) (st : Groups * Heap) :
  is_Some (protoRoutes (snd st)) →
  is_Some (protoRoutes (snd (fold_left groupStep resources st))).
Proof.
  revert st. induction resources as [|r rs IH]; intros st Hst; [done|].
  simpl. by apply IH, groupStep_keeps_proto.
Qed.

Lemma groupStep_proto (own : Groups) (g : Heap) (r : string) :
  assoc "__proto__" own = None →
  groupedUnder "__proto__" r = true →
  is_Some (protoRoutes (snd (groupStep (own, g) r))).
Proof.
  intros Hown [Hns Hp%String.eqb_eq]%andb_true_iff.
  unfold groupStep. rewrite Hns, Hp. unfold readApp. rewrite Hown.
  unfold inherited, pushRoute. simpl.
  destruct (protoRoutes g); simpl; by eexists.
Qed.

Lemma groupStep_reaches_proto (st : Groups * Heap) (r : string) :
  assoc "__proto__" (fst st) = None →
  groupedUnder "__proto__" r = true →
  is_Some (protoRoutes (snd (groupStep st r))).
Proof. destruct st as [own g]. apply groupStep_proto. Qed.

Lemma proto_is_no_name (resources : list string) (own : Groups) (g : Heap) :
  assoc "__proto__" own = None →
  assoc "__proto__" (fst (fold_left groupStep resources (own, g))) = None.
Proof.
  intros Hown. apply assoc_None. rewrite groupFold_names.
  rewrite addNames_elem. apply assoc_None in Hown. naive_solver.
Qed.

(** X23: from an untouched [Object.prototype], the grouping loop of
    [updateAppRoutes] leaves the property [routes] on it exactly when some
    requested resource has the prefix [__proto__]; the loop runs before any
    lookup, so this happens whatever the registry answers. *)
Theorem prototype_is_touched_iff (resources : list string) :
  is_Some (protoRoutes (snd (groupRoutes resources untouched)))
  ↔ ∃ resc, resc ∈ resources ∧ groupedUnder "__proto__" resc = true.
Proof.
  split.
  - intros Hsome.
    destruct (decide (Forall (fun resc => groupedUnder "__proto__" resc = false)
                             resources)) as [Hall|Hex].
    + rewrite Forall_forall in Hall.
      destruct (groupRoutes_tidy resources untouched "" eq_refl Hall)
        as [[Hnone _] _].
      rewrite Hnone in Hsome. by destruct Hsome.
    + apply not_Forall_Exists in Hex; [|apply _].
      apply Exists_exists in Hex as (resc & Hin & Hg).
      exists resc. split; [done|]. simpl in Hg.
      destruct (groupedUnder "__proto__" resc); [done|by destruct Hg].
  - intros (resc & Hin & Hg).
    apply list_elem_of_split in Hin as (rs1 & rs2 & ->).
    unfold groupRoutes. rewrite fold_left_app. simpl.
    apply groupFold_keeps_proto.
    pose proof (proto_is_no_name rs1 [] untouched eq_refl) as Hno.
    apply groupStep_reaches_proto; [exact Hno|exact Hg].
Qed.

(** ** Resources that begin with '/' *)

Lemma groupFold_filter (resources : list string) (st : Groups * Heap) :
  fold_left groupStep (List.filter notSlashFirst resources) st
  = fold_left groupStep resources st.
Proof.
  revert st. induction resources as [|r rs IH]; intros st; simpl; [done|].
  destruct (notSlashFirst r) eqn:E; simpl; rewrite IH; [done|].
  f_equal. unfold groupStep. destruct st. by rewrite E.
Qed.

Lemma groupRoutes_filter (resources : list string) (g : Heap) :
  groupRoutes (List.filter notSlashFirst resources) g
  = groupRoutes resources g.
Proof. apply groupFold_filter. Qed.

Section SlashFirst.

Context {St Reg : Type} `{!AclBackend St} `{!Registry Reg}.

Implicit Types (s : St) (d : Reg) (w : World St Reg) (req : Req).

(** X20: resources that begin with '/' take no part in [updateAppRoutes]:
    leaving them out of the request changes nothing of what it does,
    whatever the registry and the heap; and a request all of whose
    resources begin with '/' makes no call on the registry and leaves
    everything as it was. *)
Theorem slash_first_resources_are_ignored req w :
  updateAppRoutes (mkReq (params req) (withoutSlashFirst (body req))) w
  = updateAppRoutes req w
  ∧ ((∀ resc, resc ∈ requestResources (body req) →
              ∃ rest, resc = String "/" rest) →
     updateAppRoutes req w = (tt, w)).
Proof.
  split.
  - rewrite !updateAppRoutes_spec. simpl.
    by rewrite requestResources_without, groupRoutes_filter.
  - intros Hall. rewrite updateAppRoutes_spec.
    assert (groupRoutes (requestResources (body req)) (heap w)
            = ([], heap w)) as ->.
    { unfold groupRoutes. generalize (@nil (string * App)).
      induction (requestResources (body req)) as [|r rs IH]; intros own;
        [done|].
      simpl. destruct (Hall r) as [rest ->]; [by left|]. simpl.
      apply IH. intros resc Hin. apply Hall. by right. }
    simpl. rewrite app_nil_r. by destruct w.
Qed.

End SlashFirst.

(** ** Concrete runs *)

Section Runs.

Import RefStore RefRegistry RefUsers.

(** POST /roles for a new role with three resources: one lookup in the
    registry for each prefix of a resource that does not begin with '/',
    and a save for the application that is registered. *)
Example post_roles_run :
  trace (run (post_roles authorRequest) editorStore gleanerRoutes)
  = [EAcl CListRoles;
     EAcl (CAllow "author" (Arr ["a"; "gleaner/x"; "/z"]) ["read"]);
     EFindOne "a"; EFindOne "gleaner";
     ESave "gleaner" ["gleaner/a"; "gleaner/x"];
     EAcl CListRoles; EJson (VArray ["editor"; "author"])].
Proof. by vm_compute. Qed.

(** The scenario of the editor: [write] can be deleted from
    [read, write], after which [read] is the last permission and stays. *)
Example editor_scenario :
  let w1 := run (delete_permission (request "editor" "docs" "write" noBody))
                editorStore noRoutes in
  let w2 := run (delete_permission (request "editor" "docs" "read" noBody))
                (acl w1) noRoutes in
  responses (trace w1) = [ESend (VArray ["read"])]
  ∧ responses (trace w2)
    = [ENext (status400
                "The permission read can't be remove because is the last")]
  ∧ acl w2 = acl w1.
Proof. by vm_compute. Qed.

(** What every object inherits counts as a resource of the role: a grant
    on [constructor], which the editor does not have, passes the existence
    check and reaches [allow]; a GET of it is answered with the function
    that every object has under that name. *)
Example inherited_names_pass_for_resources :
  let grant := request "editor" "constructor" ""
                       (mkBody None None None (Some ["read"])) in
  aclCalls (trace (run (post_permissions grant) editorStore noRoutes))
  = [CExistsRole "editor"; CWhatResources "editor";
     CAllow "editor" (Str "constructor") ["read"]; CWhatResources "editor"]
  ∧ trace (run (get_resource (request "editor" "constructor" "" noBody))
               editorStore noRoutes)
    = [EAcl (CExistsRole "editor"); EAcl (CWhatResources "editor");
       EJson (VFunction "constructor")].
Proof. by vm_compute. Qed.

(** C1 does not hold of the code: POST /roles with
    [{roles: "r", resources: ["a"], permissions: []}] on the empty store
    passes validation (an empty array is truthy), is answered with the
    roles, and leaves the resource ["a"] of role ["r"] with no permission
    at all. *)
Lemma empty_grant_leaves_no_permission :
  let req := mkReq (mkParams None None None)
                   (mkBody (Some "r") None (Some ["a"]) (Some [])) in
  let w := run (handle PostRoles req) (∅ : gmap string ResMap) noRoutes in
  wellFormed ∅
  ∧ responses (trace w) = [EJson (VArray ["r"])]
  ∧ whatResources "r" (acl w) = inr ({[ "a" := [] ]} : ResMap)
  ∧ ¬ wellFormed (acl w).
Proof.
  split; [|split; [|split]].
  - intros role m res perms Hrole. by rewrite lookup_empty in Hrole.
  - by vm_compute.
  - by vm_compute.
  - intros Hwf.
    assert (1 ≤ length (@nil string))%nat as Hlen; [|simpl in Hlen; lia].
    apply (Hwf "r" {[ "a" := [] ]} "a"); by vm_compute.
Qed.

(** C2 fails as it is stated: with the two permissions [read] and [write]
    on [docs], DELETE .../docs/permissions/write removes the second to
    last permission: the answer is the remaining list, not an error, and
    the resource has changed. *)
Lemma second_to_last_permission_is_removed :
  let w := run (delete_permission (request "editor" "docs" "write" noBody))
               editorStore noRoutes in
  whatResources "editor" editorStore
  = inr ({[ "docs" := ["read"; "write"] ]} : ResMap)
  ∧ responses (trace w) = [ESend (VArray ["read"])]
  ∧ whatResources "editor" (acl w) = inr ({[ "docs" := ["read"] ]} : ResMap).
Proof. by vm_compute. Qed.


(** C10 does not hold of the code for a resource whose prefix is
    [__proto__]: POST /roles with the resources [__proto__/x] and
    [gleaner/y], on a registry that has the applications [gleaner] and
    [__proto__]. The resource [__proto__/x] does not begin with '/' and
    its prefix is [__proto__], yet that application is never looked up:
    the one lookup is that of [gleaner], and [__proto__/x] is saved among
    the routes of [gleaner]. The array of the group has landed on
    [Object.prototype], where it stays for the requests to come. *)
Lemma proto_prefix_is_filed_elsewhere :
  let w := run (handle PostRoles protoRequest) editorStore protoRegistry in
  requestResources (body protoRequest) = ["__proto__/x"; "gleaner/y"]
  ∧ notSlashFirst "__proto__/x" = true
  ∧ splitHead "__proto__/x" = "__proto__"
  ∧ findOne "__proto__" protoRegistry = FindDoc (Some [])
  ∧ registryCalls (trace w)
    = [EFindOne "gleaner";
       ESave "gleaner" ["gleaner/a"; "__proto__/x"; "gleaner/y"]]
  ∧ findOne "gleaner" (db w)
    = FindDoc (Some ["gleaner/a"; "__proto__/x"; "gleaner/y"])
  ∧ protoRoutes (heap w) = Some ["__proto__/x"; "gleaner/y"].
Proof. by vm_compute. Qed.

(** The reader's only permission on [docs] cannot be deleted. *)
Lemma last_permission_is_protected_witness :
  let w := run (delete_permission (request "reader" "docs" "read" noBody))
               readerStore noRoutes in
  trace w
  = [EAcl (CExistsRole "reader"); EAcl (CWhatResources "reader");
     ENext (status400
              "The permission read can't be remove because is the last")]
  ∧ acl w = readerStore.
Proof.
  apply (last_permission_is_protected
           (request "reader" "docs" "read" noBody) readerStore noRoutes
           {[ "docs" := ["read"] ]} ["read"]).
  - vm_compute. reflexivity.
  - vm_compute. reflexivity.
  - vm_compute. reflexivity.
  - simpl. lia.
Defined.



(** Deleting [docs] asks for the removal of [read] and [write]. *)
Lemma delete_resource_removes_previous_permissions_witness :
  let w := run (delete_resource (request "editor" "docs" "" noBody))
               editorStore noRoutes in
  aclCalls (trace w)
  = [CExistsRole "editor"; CWhatResources "editor";
     CRemoveAllow "editor" "docs" (Arr ["read"; "write"]);
     CWhatResources "editor"]
  ∧ responses (trace w)
    = [EJson (VObject (delete "docs" {[ "docs" := ["read"; "write"] ]}))].
Proof.
  destruct (delete_resource_removes_previous_permissions
              "editor" "docs" (Some "") noBody editorStore noRoutes
              {[ "docs" := ["read"; "write"] ]} ["read"; "write"])
    as (Hcalls & _ & Hresp & _).
  - vm_compute. reflexivity.
  - vm_compute. reflexivity.
  - split; [exact Hcalls|exact Hresp].
Defined.

(** A new role with a resource of the application [gleaner]: the same
    outcome with a registry that knows [gleaner] and one that is down. *)
Lemma registry_never_changes_outcome_witness :
  let req := mkReq (mkParams None None None)
                   (mkBody (Some "author") None (Some ["gleaner/docs"])
                           (Some ["read"])) in
  outcome (run (post_roles (Registry0 := mapRegistry) req) editorStore
               ({[ "gleaner" := [] ]} : gmap string (list string)))
  = outcome (run (post_roles (Registry0 := down) req) editorStore tt).
Proof.
  apply (registry_never_changes_outcome mapRegistry down
           (mkReq (mkParams None None None)
                  (mkBody (Some "author") None (Some ["gleaner/docs"])
                          (Some ["read"])))
           editorStore {[ "gleaner" := [] ]} tt).
Defined.

(** With a backend whose reads fail, the [get] task calls back twice. *)
Lemma get_task_calls_back_twice_witness :
  fst (get_task (AclBackend0 := Outage.lossy) "editor"
         (mkWorld editorStore noRoutes []))
  = [(Some Outage.storeError, VUndefined); (None, VUndefined)].
Proof.
  destruct (get_task_calls_back_twice (AclBackend0 := Outage.lossy)
              "editor" Outage.storeError editorStore noRoutes) as [Htwice _].
  - vm_compute. reflexivity.
  - reflexivity.
  - apply Htwice.
Defined.

Lemma mapRegistry_keepsDocuments :
  keepsDocuments (Reg := gmap string (list string)).
Proof.
  split; [|split]; simpl.
  - intros p q routes d Hne. by rewrite lookup_insert_ne.
  - intros q routes found d _. by rewrite lookup_insert_eq.
  - intros q routes d Hf.
    destruct (d !! q) as [r|] eqn:E; [|done]. simplify_eq.
    by apply insert_id.
Qed.

Lemma authorRequest_plain (resc : string) :
  resc ∈ requestResources (body authorRequest) →
  groupedUnder "__proto__" resc = false.
Proof.
  change (requestResources (body authorRequest))
    with ["a"; "gleaner/x"; "/z"].
  rewrite !elem_of_cons, elem_of_nil.
  intros [->|[->|[->|[]]]]; reflexivity.
Qed.

(** The group of [gleaner] in the request of the author. *)
Lemma groupRoutes_exact_witness :
  routesOf (snd (groupRoutes ["a"; "gleaner/x"; "/z"] untouched))
           (fst (groupRoutes ["a"; "gleaner/x"; "/z"] untouched)) "gleaner"
  = ["gleaner/x"].
Proof.
  destruct (groupRoutes_exact ["a"; "gleaner/x"; "/z"] "gleaner")
    as [Hroutes _].
  - apply authorRequest_plain.
  - exact Hroutes.
Defined.

(** The resource [gleaner/x] is looked up as [gleaner]. *)
Lemma looked_up_prefix_shape_witness :
  hasSlash "gleaner" = false
  ∧ ∃ resc rest,
      resc ∈ requestResources (body authorRequest)
      ∧ resc = "gleaner" +:+ rest
      ∧ (rest = "" ∨ ∃ rest', rest = String "/" rest').
Proof.
  apply (looked_up_prefix_shape authorRequest editorStore gleanerRoutes).
  vm_compute. apply list_elem_of_further, list_elem_of_here.
Defined.

(** With the registry down nothing is saved. *)
Lemma unregistered_prefixes_save_nothing_witness :
  let w := snd (updateAppRoutes (Registry0 := down) authorRequest
                  (mkWorld editorStore tt [])) in
  db w = tt ∧ saves (trace w) = [] ∧ acl w = editorStore.
Proof.
  apply (unregistered_prefixes_save_nothing (Registry0 := down)
           authorRequest editorStore tt).
  intros resc routes _ _. simpl. discriminate.
Defined.

(** What is saved for [gleaner] is its route [gleaner/a] followed by the
    new route. *)
Lemma saves_extend_the_document_witness :
  ∃ found added,
    findOne "gleaner" gleanerRoutes = FindDoc found
    ∧ ["gleaner/a"; "gleaner/x"] = default [] found ++ added
    ∧ NoDup added
    ∧ ∀ r, r ∈ added
           ↔ (r ∈ requestResources (body authorRequest)
              ∧ groupedUnder "gleaner" r = true)
             ∧ r ∉ default [] found.
Proof.
  apply (saves_extend_the_document authorRequest editorStore gleanerRoutes
           "gleaner" ["gleaner/a"; "gleaner/x"]).
  - apply authorRequest_plain.
  - vm_compute. apply list_elem_of_here.
Defined.

(** Deleting [write] from [docs]: the mutation succeeds and the store is
    read again. *)
Lemma answer_after_checks_witness :
  let req := request "editor" "docs" "write" noBody in
  let w := run (handle DeletePermission req) editorStore noRoutes in
  let m := mutationCall DeletePermission req editorStore in
  match fst (perform m editorStore) with
  | Some e =>
      responses (trace w) = [ENext e]
      ∧ aclCalls (trace w)
        = concat (map consults (checks DeletePermission req editorStore))
          ++ [m]
  | None =>
      responses (trace w)
      = [reread DeletePermission req (snd (perform m editorStore))]
      ∧ aclCalls (trace w)
        = concat (map consults (checks DeletePermission req editorStore))
          ++ [m; requery DeletePermission req]
  end.
Proof.
  apply (answer_after_checks DeletePermission
           (request "editor" "docs" "write" noBody) editorStore noRoutes).
  vm_compute. reflexivity.
Defined.

(** The error of the DELETE of [admin] has status 403. *)
Lemma error_statuses_witness :
  let req := request "admin" "" "" noBody in
  let e := mkErr "The role admin is indestructible" (Some 403) in
  reportedOn editorStore e
  ∨ reportedOn (acl (run (handle DeleteRole req) editorStore noRoutes)) e
  ∨ err_status e = Some 400
  ∨ (err_status e = Some 403
     ∧ DeleteRole = DeleteRole
     ∧ orEmpty (p_roleName (params req)) = "admin").
Proof.
  apply (error_statuses DeleteRole (request "admin" "" "" noBody)
           editorStore noRoutes).
  vm_compute. apply list_elem_of_here.
Defined.

(** Deleting a resource leaves the registry alone. *)
Lemma registry_left_alone_witness :
  let w := run (handle DeleteResource (request "editor" "docs" "" noBody))
               editorStore gleanerRoutes in
  db w = gleanerRoutes ∧ registryCalls (trace w) = [].
Proof.
  apply (registry_left_alone DeleteResource
           (request "editor" "docs" "" noBody) editorStore gleanerRoutes).
  reflexivity.
Defined.

(** A new role with resources: the registry is notified. *)
Lemma registry_notified_after_checks_witness :
  let w := run (handle PostRoles authorRequest) editorStore gleanerRoutes in
  let w0 := snd (updateAppRoutes (notified PostRoles authorRequest)
                   (mkWorld editorStore gleanerRoutes [])) in
  db w = db w0 ∧ registryCalls (trace w) = trace w0.
Proof.
  apply (registry_notified_after_checks PostRoles authorRequest
           editorStore gleanerRoutes).
  - reflexivity.
  - vm_compute. reflexivity.
Defined.

(** The users of a role that does not exist: [roleUsers] is not asked. *)
Lemma reads_stop_at_unknown_role_witness :
  trace (run (serve GetUsers (request "ghost" "" "" noBody))
             editorStore noRoutes)
  = [EAcl (CExistsRole "ghost"); ENext (notFound "ghost")].
Proof.
  apply (reads_stop_at_unknown_role GetUsers (request "ghost" "" "" noBody)
           editorStore noRoutes (notFound "ghost")).
  - discriminate.
  - vm_compute. reflexivity.
Defined.

(** The editor has no resource [images]. *)
Lemma absent_resource_is_reported_alike_witness :
  let req := request "editor" "images" "read"
                     (mkBody None None None (Some ["read"])) in
  let answer :=
    [EAcl (CExistsRole "editor"); EAcl (CWhatResources "editor");
     ENext (status400 ("The resource " ++ "images" ++ " in " ++ "editor"
                                       ++ " doesn't exist."))] in
  trace (run (get_resource req) editorStore noRoutes) = answer
  ∧ trace (run (delete_resource req) editorStore noRoutes) = answer
  ∧ trace (run (post_permissions req) editorStore noRoutes) = answer
  ∧ trace (run (delete_permission req) editorStore noRoutes) = answer.
Proof.
  apply (absent_resource_is_reported_alike
           (request "editor" "images" "read"
                    (mkBody None None None (Some ["read"])))
           editorStore noRoutes {[ "docs" := ["read"; "write"] ]}).
  - vm_compute. reflexivity.
  - vm_compute. reflexivity.
  - vm_compute. reflexivity.
  - change ("images" ∉ "__proto__" :: map fst objectPrototype).
    unfold objectPrototype. cbn [map fst].
    rewrite !elem_of_cons, elem_of_nil. naive_solver.
  - reflexivity.
Defined.

(** After the deletion of [write], a GET of [docs] shows [read]. *)
Lemma get_agrees_with_mutation_witness :
  bodyOf (ESend (VArray ["read"])) = bodyOf (EJson (VArray ["read"])).
Proof.
  apply (get_agrees_with_mutation DeletePermission
           (request "editor" "docs" "write" noBody) editorStore noRoutes
           noRoutes (ESend (VArray ["read"])) (EJson (VArray ["read"]))).
  - vm_compute. apply list_elem_of_here.
  - reflexivity.
  - vm_compute. apply list_elem_of_here.
  - reflexivity.
Defined.

(** Notifying the map registry a second time changes nothing. *)
Lemma updateAppRoutes_twice_witness :
  let w1 := snd (updateAppRoutes authorRequest
                   (mkWorld editorStore gleanerRoutes [])) in
  let w2 := snd (updateAppRoutes authorRequest
                   (mkWorldAt editorStore (db w1) (heap w1) [])) in
  db w2 = db w1.
Proof.
  apply (updateAppRoutes_twice authorRequest editorStore gleanerRoutes
           editorStore).
  - apply mapRegistry_keepsDocuments.
  - apply authorRequest_plain.
Defined.

(** With [__proto__/x] on [Object.prototype], the request of the author
    leaves all its routes there. *)
Lemma shared_routes_reach_every_application_witness :
  let w := snd (updateAppRoutes authorRequest
                  (mkWorldAt editorStore gleanerRoutes sharedHeap [])) in
  protoRoutes (heap w) = Some ["__proto__/x"; "a"; "gleaner/x"].
Proof.
  destruct (shared_routes_reach_every_application authorRequest editorStore
              gleanerRoutes sharedHeap ["__proto__/x"]) as [Hall _].
  - reflexivity.
  - reflexivity.
  - intros p. simpl. by destruct (gleanerRoutes !! p).
  - exact Hall.
Defined.

(** A GET of [constructor], which the editor does not have. *)
Lemma inherited_names_count_as_resources_witness :
  trace (run (get_resource (request "editor" "constructor" "" noBody))
             editorStore noRoutes)
  = [EAcl (CExistsRole "editor"); EAcl (CWhatResources "editor");
     EJson (inherited untouched "constructor")].
Proof.
  destruct (inherited_names_count_as_resources
              (request "editor" "constructor" "" noBody) editorStore noRoutes
              {[ "docs" := ["read"; "write"] ]}) as (_ & Hget & _).
  - vm_compute. reflexivity.
  - vm_compute. reflexivity.
  - vm_compute. reflexivity.
  - change ("constructor" ∈ "__proto__" :: map fst objectPrototype).
    apply list_elem_of_further, list_elem_of_here.
  - exact Hget.
Defined.

End Runs.
